(** * Zyzzyva quiz core: QuizEngine and QuizProgress

  A shallow embedding of [QuizEngine.cpp], [QuizProgress.cpp] and
  [QuizProgress.h], followed by the properties of the quiz session
  state machine and of the persisted progress format.

  Containers: [QMap<QString,int>] is a [gmap string Z], [std::set<QString>]
  a [gset string], [QStringList] a [list string].  The Qt DOM is a tree of
  nodes whose attributes are a [gmap string string]. *)

From Stdlib Require Import ZArith String Ascii DecimalString DecimalPos DecimalZ Lia.
From stdpp Require Import gmap strings list fin_maps sorting.

Local Open Scope string_scope.
Local Open Scope Z_scope.

(** ** The C++ [int] *)

(** [int] is a 32-bit two's-complement integer.  Arithmetic on it is written
  with its wrap-around ([wrap]); the C++ standard leaves signed overflow
  undefined, the compilers the program is built with wrap. *)
Module CInt.

Definition INT_MIN : Z := -2147483648.
Definition INT_MAX : Z := 2147483647.

Definition in_range (z : Z) : Prop := INT_MIN <= z <= INT_MAX.

Definition in_rangeb (z : Z) : bool := (INT_MIN <=? z) && (z <=? INT_MAX).

#[global] Instance in_range_dec z : Decision (in_range z).
Proof. unfold in_range. apply _. Defined.

Definition wrap (z : Z) : Z := (z + 2147483648) mod 4294967296 - 2147483648.

(** [a + b], [a += b] and [++a] on [int]. *)
Definition add (a b : Z) : Z := wrap (a + b).
Definition incr (a : Z) : Z := add a 1.

End CInt.

(** ** The part of Qt the two classes use *)

Module Qt.

(** [QString::number (int)] / [QString::setNum (int)]: the decimal
    representation, with a leading [-] for negative values. *)
Definition number (n : Z) : string := NilZero.string_of_int (Z.to_int n).

(** [QChar::isSpace()].  A character of a [string] stands for the [QChar]
    with the same code, below 256.  Of these, the white space characters
    are the control characters from tab (9) to carriage return (13) and the
    two separators: the space (32) and the no-break space (160). *)
Definition isSpace (c : ascii) : bool :=
  let code := N_of_ascii c in
  ((9 <=? code) && (code <=? 13) || (code =? 32) || (code =? 160))%N.

(** [while (l && p->isSpace()) l--, p++;]: the string from its first
    character that is not white space. *)
Fixpoint skipSpace (s : string) : string :=
  match s with
  | String c rest => if isSpace c then skipSpace rest else s
  | EmptyString => s
  end.

(** The string without the white space at its end. *)
Fixpoint trimRight (s : string) : string :=
  match s with
  | EmptyString => EmptyString
  | String c rest =>
      match trimRight rest with
      | EmptyString => if isSpace c then EmptyString else String c EmptyString
      | kept => String c kept
      end
  end.

(** No character of the string is white space. *)
Fixpoint spaceFree (s : string) : bool :=
  match s with
  | String c rest => negb (isSpace c) && spaceFree rest
  | EmptyString => true
  end.

(** The digits of [QString::toInt]: a non-empty run of decimal digits,
    followed by nothing but white space, read as a negative number after a
    [-] sign.  The value has to be an [int]. *)
Definition toIntDigits (negative : bool) (digits : string) : option Z :=
  match NilZero.uint_of_string (trimRight digits) with
  | Some d =>
      let n := Z.of_int (if negative then Decimal.Neg d else Decimal.Pos d) in
      if CInt.in_rangeb n then Some n else None
  | None => None
  end.

(** [QString::toInt (&ok)] in base 10: [Some n] stands for [ok = true] and
    the value [n]; [None] for [ok = false].  Qt skips the white space before
    the numeral, takes one optional sign, [-] or [+], reads the digits and
    skips the white space after them; anything else in the string, no digit
    at all, or a value outside the range of [int] gives [ok = false]. *)
Definition toInt (s : string) : option Z :=
  match skipSpace s with
  | String c rest =>
      if Ascii.eqb c "-" then toIntDigits true rest
      else if Ascii.eqb c "+" then toIntDigits false rest
      else toIntDigits false (String c rest)
  | EmptyString => None
  end.

(** A DOM node.  [QDomElement] carries its tag name, its attributes and its
    child nodes in document order; [QDomOther] is any node that is not an
    element (text, comment, processing instruction, or the null node), that
    is, a node whose [toElement()] is the null element. *)
#[warnings="-register-all"]
Inductive QDomNode : Type :=
| QDomElement (tag : string) (attrs : gmap string string)
              (children : list QDomNode)
| QDomOther (data : string).

(** [QDomElement::tagName()]; the null element has the null (empty) name. *)
Definition tagName (n : QDomNode) : string :=
  match n with QDomElement tag _ _ => tag | QDomOther _ => "" end.

Definition hasAttribute (attrs : gmap string string) (name : string) : bool :=
  bool_decide (is_Some (attrs !! name)).

(** [QDomElement::attribute (name)]: the value, or the null string. *)
Definition attribute (attrs : gmap string string) (name : string) : string :=
  default "" (attrs !! name).

(** [QDomElement::setAttribute (name, value)] replaces an existing value. *)
Definition setAttribute (name value : string) (attrs : gmap string string)
  : gmap string string := <[name := value]> attrs.

(** Iteration over a [QMap<QString,int>] from [begin()] to [end()]: the
    entries in ascending order of their keys. *)
Definition entry_le (a b : string * Z) : Prop := String.le a.1 b.1.

Definition QMap_entries (m : gmap string Z) : list (string * Z) :=
  merge_sort entry_le (map_to_list m).

(** Iteration over a [std::set<QString>] from [begin()] to [end()]: the
    members in ascending order. *)
Definition set_members (X : gset string) : list string :=
  merge_sort String.le (elements X).

(** The siblings visited by a loop of the form
    [for (e = first.toElement(); !e.isNull(); e = e.nextSibling().toElement())]:
    the elements up to the first node that is not an element. *)
Fixpoint visited (nodes : list QDomNode) : list QDomNode :=
  match nodes with
  | QDomElement tag attrs children :: siblings =>
      QDomElement tag attrs children :: visited siblings
  | _ => []
  end.

End Qt.

(** ** QuizProgress *)

Module QuizProgress.
Import Qt.

Definition XML_TOP_ELEMENT := "progress".
Definition XML_QUESTION_ATTR := "question".
Definition XML_CORRECT_ATTR := "correct".
Definition XML_INCORRECT_RESPONSES_ELEMENT := "incorrect-responses".
Definition XML_MISSED_RESPONSES_ELEMENT := "missed-responses".
Definition XML_RESPONSE_ELEMENT := "response".
Definition XML_RESPONSE_WORD_ATTR := "word".
Definition XML_RESPONSE_COUNT_ATTR := "count".

Record t : Type := Build {
  question : Z;
  correct : Z;
  incorrect : Z;
  missed : Z;
  incorrectWords : gmap string Z;
  missedWords : gmap string Z
}.

(** The constructor [QuizProgress()]. *)
Definition fresh : t := Build 0 0 0 0 ∅ ∅.

Definition setQuestion (q : Z) (p : t) : t :=
  Build q (correct p) (incorrect p) (missed p) (incorrectWords p) (missedWords p).

Definition setCorrect (c : Z) (p : t) : t :=
  Build (question p) c (incorrect p) (missed p) (incorrectWords p) (missedWords p).

Definition getQuestion (p : t) : Z := question p.
Definition getNumCorrect (p : t) : Z := correct p.
Definition getNumIncorrect (p : t) : Z := incorrect p.
Definition getNumMissed (p : t) : Z := missed p.
Definition getIncorrect (p : t) : gmap string Z := incorrectWords p.
Definition getMissed (p : t) : gmap string Z := missedWords p.

(** [if (words.contains (word)) ++words[word]; else words[word] = 1;] *)
Definition bump (word : string) (words : gmap string Z) : gmap string Z :=
  match words !! word with
  | Some c => <[word := CInt.incr c]> words
  | None => <[word := 1]> words
  end.

(** [addIncorrect (const QString& word)] *)
Definition addIncorrect (word : string) (p : t) : t :=
  Build (question p) (correct p) (CInt.incr (incorrect p)) (missed p)
        (bump word (incorrectWords p)) (missedWords p).

(** [addIncorrect (const QString& word, int count)] *)
Definition addIncorrectCount (word : string) (count : Z) (p : t) : t :=
  Build (question p) (correct p) (CInt.add (incorrect p) count) (missed p)
        (<[word := count]> (incorrectWords p)) (missedWords p).

(** [addMissed (const QString& word)] *)
Definition addMissed (word : string) (p : t) : t :=
  Build (question p) (correct p) (incorrect p) (CInt.incr (missed p))
        (incorrectWords p) (bump word (missedWords p)).

(** [addMissed (const QString& word, int count)] *)
Definition addMissedCount (word : string) (count : Z) (p : t) : t :=
  Build (question p) (correct p) (incorrect p) (CInt.add (missed p) count)
        (incorrectWords p) (<[word := count]> (missedWords p)).

(** [if (elemMissed) tmpProgress.addMissed (word, count);
     else tmpProgress.addIncorrect (word, count);] *)
Definition addCounted (elemMissed : bool) (word : string) (count : Z)
           (p : t) : t :=
  if elemMissed then addMissedCount word count p
  else addIncorrectCount word count p.

(** *** asDomElement *)

(** One [<response word=".." count=".."/>] element. *)
Definition responseElement (entry : string * Z) : QDomNode :=
  QDomElement XML_RESPONSE_ELEMENT
    (setAttribute XML_RESPONSE_COUNT_ATTR (number entry.2)
       (setAttribute XML_RESPONSE_WORD_ATTR entry.1 ∅))
    [].

(** The container for one of the two maps, appended to the top element only
    when the map is not empty; it has one child per entry, in the order of
    the iteration over the map. *)
Definition responsesElement (tag : string) (words : gmap string Z)
  : list QDomNode :=
  if decide (words = ∅) then []
  else [QDomElement tag ∅ (responseElement <$> QMap_entries words)].

Definition asDomElement (p : t) : QDomNode :=
  QDomElement XML_TOP_ELEMENT
    (setAttribute XML_CORRECT_ATTR (number (correct p))
       (setAttribute XML_QUESTION_ATTR (number (question p)) ∅))
    (responsesElement XML_INCORRECT_RESPONSES_ELEMENT (incorrectWords p)
     ++ responsesElement XML_MISSED_RESPONSES_ELEMENT (missedWords p))%list.

(** *** fromDomElement *)

(** The inner loop, over the children of one container.  It runs while the
    current sibling converts to an element; [None] is [return false]. *)
Fixpoint readResponses (elemMissed : bool) (nodes : list QDomNode)
         (tmpProgress : t) : option t :=
  match nodes with
  | QDomElement _ attrs _ :: siblings =>
      if negb (hasAttribute attrs XML_RESPONSE_WORD_ATTR)
         || negb (hasAttribute attrs XML_RESPONSE_COUNT_ATTR)
      then None
      else
        match toInt (attribute attrs XML_RESPONSE_COUNT_ATTR) with
        | None => None
        | Some count =>
            let word := attribute attrs XML_RESPONSE_WORD_ATTR in
            readResponses elemMissed siblings
              (addCounted elemMissed word count tmpProgress)
        end
  | _ => Some tmpProgress
  end.

(** The outer loop, over the children of the top element. *)
Fixpoint readContainers (nodes : list QDomNode) (tmpProgress : t)
  : option t :=
  match nodes with
  | QDomElement tag _ children :: siblings =>
      let elemMissed := bool_decide (tag = XML_MISSED_RESPONSES_ELEMENT) in
      if negb elemMissed
         && negb (bool_decide (tag = XML_INCORRECT_RESPONSES_ELEMENT))
      then None
      else
        match readResponses elemMissed children tmpProgress with
        | None => None
        | Some tmpProgress' => readContainers siblings tmpProgress'
        end
  | _ => Some tmpProgress
  end.

(** An optional integer attribute of the top element: absent leaves the
    scratch object as it is, present and integral stores it, present and
    not integral is [return false]. *)
Definition readIntAttr (attrs : gmap string string) (name : string)
           (store : Z -> t -> t) (tmpProgress : t) : option t :=
  if hasAttribute attrs name then
    match toInt (attribute attrs name) with
    | None => None
    | Some n => Some (store n tmpProgress)
    end
  else Some tmpProgress.

(** Everything [fromDomElement] does before the final assignment: the
    scratch object [tmpProgress], or [None] for [return false]. *)
Definition readProgress (element : QDomNode) : option t :=
  if negb (bool_decide (tagName element = XML_TOP_ELEMENT)) then None
  else
    match element with
    | QDomOther _ => None
    | QDomElement _ attrs children =>
        match readIntAttr attrs XML_QUESTION_ATTR setQuestion fresh with
        | None => None
        | Some tmp1 =>
            match readIntAttr attrs XML_CORRECT_ATTR setCorrect tmp1 with
            | None => None
            | Some tmp2 => readContainers children tmp2
            end
        end
    end.

(** [fromDomElement]: the returned flag and the object after the call.
    [*this = tmpProgress] is the only write to the object. *)
Definition fromDomElement (element : QDomNode) (this : t) : bool * t :=
  match readProgress element with
  | None => (false, this)
  | Some tmpProgress => (true, tmpProgress)
  end.

(** *** Notions used in the statements *)

(** The sum of the repeat counts of a map. *)
Definition sumCounts (words : gmap string Z) : Z :=
  foldr Z.add 0 (map_to_list words).*2.

(** Every number that [asDomElement] writes (the question, the correct count
    and the repeat counts) is a value of type [int]. *)
Definition intsInRange (p : t) : Prop :=
  CInt.in_range (question p) /\ CInt.in_range (correct p) /\
  map_Forall (fun _ count => CInt.in_range count) (incorrectWords p) /\
  map_Forall (fun _ count => CInt.in_range count) (missedWords p).

(** The two running totals are the sums of the repeat counts, as [int]s. *)
Definition totalsAgree (p : t) : Prop :=
  incorrect p = CInt.wrap (sumCounts (incorrectWords p)) /\
  missed p = CInt.wrap (sumCounts (missedWords p)).

(** The objects a client can build: a fresh object, changed by any of the
    public operations with [int] arguments. *)
Inductive reachable : t -> Prop :=
| reachable_fresh : reachable fresh
| reachable_setQuestion q p :
    CInt.in_range q -> reachable p -> reachable (setQuestion q p)
| reachable_setCorrect c p :
    CInt.in_range c -> reachable p -> reachable (setCorrect c p)
| reachable_addIncorrect word p :
    reachable p -> reachable (addIncorrect word p)
| reachable_addIncorrectCount word count p :
    CInt.in_range count -> reachable p ->
    reachable (addIncorrectCount word count p)
| reachable_addMissed word p :
    reachable p -> reachable (addMissed word p)
| reachable_addMissedCount word count p :
    CInt.in_range count -> reachable p ->
    reachable (addMissedCount word count p)
| reachable_fromDomElement element p :
    reachable p -> reachable (fromDomElement element p).2.

(** The schema of the persisted form, stated on the document alone.  An
    optional integer attribute is absent or parses as an [int]. *)
Definition intAttrOk (attrs : gmap string string) (name : string) : bool :=
  negb (hasAttribute attrs name)
  || bool_decide (is_Some (toInt (attribute attrs name))).

(** A response element has a [word] and a [count], and the count parses. *)
Definition responseOk (node : QDomNode) : bool :=
  match node with
  | QDomElement _ attrs _ =>
      hasAttribute attrs XML_RESPONSE_WORD_ATTR
      && hasAttribute attrs XML_RESPONSE_COUNT_ATTR
      && bool_decide (is_Some (toInt (attribute attrs XML_RESPONSE_COUNT_ATTR)))
  | QDomOther _ => true
  end.

(** A child of the top element is one of the two containers, and every
    response element the reader visits in it is well formed. *)
Definition containerOk (node : QDomNode) : bool :=
  match node with
  | QDomElement tag _ children =>
      (bool_decide (tag = XML_MISSED_RESPONSES_ELEMENT)
       || bool_decide (tag = XML_INCORRECT_RESPONSES_ELEMENT))
      && forallb responseOk (visited children)
  | QDomOther _ => true
  end.

(** The document validates: top tag, optional integer attributes, and every
    child element the reader visits. *)
Definition validates (element : QDomNode) : bool :=
  match element with
  | QDomElement tag attrs children =>
      bool_decide (tag = XML_TOP_ELEMENT)
      && intAttrOk attrs XML_QUESTION_ATTR
      && intAttrOk attrs XML_CORRECT_ATTR
      && forallb containerOk (visited children)
  | QDomOther _ => false
  end.

(** The map a response element goes to. *)
Definition wordsOf (elemMissed : bool) (p : t) : gmap string Z :=
  if elemMissed then missedWords p else incorrectWords p.

(** The word of a response element. *)
Definition responseWord (node : QDomNode) : string :=
  match node with
  | QDomElement _ attrs _ => attribute attrs XML_RESPONSE_WORD_ATTR
  | QDomOther _ => ""
  end.

(** The words that one child of the top element adds to the missed map
    ([elemMissed = true]) or to the incorrect map ([elemMissed = false]). *)
Definition containerWords (elemMissed : bool) (node : QDomNode)
  : list string :=
  match node with
  | QDomElement tag _ children =>
      if bool_decide
           (bool_decide (tag = XML_MISSED_RESPONSES_ELEMENT) = elemMissed)
      then responseWord <$> visited children
      else []
  | QDomOther _ => []
  end.

(** The words that a document adds to one of the two maps, in order. *)
Definition documentWords (elemMissed : bool) (element : QDomNode)
  : list string :=
  match element with
  | QDomElement _ _ children =>
      concat (containerWords elemMissed <$> visited children)
  | QDomOther _ => []
  end.

(** The document lists no word twice for the same map. *)
Definition noWordTwice (element : QDomNode) : Prop :=
  NoDup (documentWords false element) /\ NoDup (documentWords true element).

(** The objects a client can build without a counted add of a word that is
    already in the map: the counted overloads are applied to new words, and
    the documents read list no word twice for the same map. *)
Inductive reachableNoOverwrite : t -> Prop :=
| noOverwrite_fresh : reachableNoOverwrite fresh
| noOverwrite_setQuestion q p :
    CInt.in_range q -> reachableNoOverwrite p ->
    reachableNoOverwrite (setQuestion q p)
| noOverwrite_setCorrect c p :
    CInt.in_range c -> reachableNoOverwrite p ->
    reachableNoOverwrite (setCorrect c p)
| noOverwrite_addIncorrect word p :
    reachableNoOverwrite p -> reachableNoOverwrite (addIncorrect word p)
| noOverwrite_addIncorrectCount word count p :
    CInt.in_range count -> incorrectWords p !! word = None ->
    reachableNoOverwrite p ->
    reachableNoOverwrite (addIncorrectCount word count p)
| noOverwrite_addMissed word p :
    reachableNoOverwrite p -> reachableNoOverwrite (addMissed word p)
| noOverwrite_addMissedCount word count p :
    CInt.in_range count -> missedWords p !! word = None ->
    reachableNoOverwrite p ->
    reachableNoOverwrite (addMissedCount word count p)
| noOverwrite_fromDomElement element p :
    noWordTwice element -> reachableNoOverwrite p ->
    reachableNoOverwrite (fromDomElement element p).2.

(** The scratch object after the counted adds for a list of entries. *)
Definition restore (elemMissed : bool) (entries : list (string * Z))
           (tmpProgress : t) : t :=
  foldl (fun tmp entry => addCounted elemMissed entry.1 entry.2 tmp)
        tmpProgress entries.

(** The [(word, count)] pair a response element stands for, when its count
    parses. *)
Definition responseEntry (node : QDomNode) : option (string * Z) :=
  match node with
  | QDomElement _ attrs _ =>
      match toInt (attribute attrs XML_RESPONSE_COUNT_ATTR) with
      | Some count => Some (attribute attrs XML_RESPONSE_WORD_ATTR, count)
      | None => None
      end
  | QDomOther _ => None
  end.

(** The pairs of the response elements the reader visits in one container,
    in order: those before the first child that is not an element. *)
Definition responseEntries (nodes : list QDomNode) : list (string * Z) :=
  omap responseEntry (visited nodes).

(** The pairs the reader visits in one child of the top element for the
    missed map ([elemMissed = true]) or for the incorrect map. *)
Definition containerEntries (elemMissed : bool) (node : QDomNode)
  : list (string * Z) :=
  match node with
  | QDomElement tag _ children =>
      if bool_decide
           (bool_decide (tag = XML_MISSED_RESPONSES_ELEMENT) = elemMissed)
      then responseEntries children
      else []
  | QDomOther _ => []
  end.

(** The pairs the reader visits in a document for one of the two maps, in
    document order: those of the containers before the first child of the
    top element that is not an element, and in each of them those of the
    response elements before its first child that is not an element. *)
Definition documentEntries (elemMissed : bool) (element : QDomNode)
  : list (string * Z) :=
  match element with
  | QDomElement _ _ children =>
      concat (containerEntries elemMissed <$> visited children)
  | QDomOther _ => []
  end.

(** The value of an optional integer attribute of the top element: 0 when
    the attribute is absent. *)
Definition intAttrOr0 (element : QDomNode) (name : string) : Z :=
  match element with
  | QDomElement _ attrs _ =>
      if hasAttribute attrs name
      then default 0 (toInt (attribute attrs name))
      else 0
  | QDomOther _ => 0
  end.

(** The object after one [addIncorrect (word)] per word of a list, and after
    one [addMissed (word)] per word. *)
Definition tallyIncorrect (words : list string) (p : t) : t :=
  foldl (fun p word => addIncorrect word p) p words.

Definition tallyMissed (words : list string) (p : t) : t :=
  foldl (fun p word => addMissed word p) p words.

(** How often a word occurs in a list. *)
Definition occurrences (word : string) (words : list string) : nat :=
  length (filter (fun w => w = word) words).

End QuizProgress.

(** ** The lexicon service *)

(** [WordEngine] is an external collaborator: the engine only calls its four
  queries.  An engine is given by the four functions. *)
Module WordEngine.

Record t : Type := Build {
  matchPattern : string -> list string;
  matchAnagram : string -> list string;
  matchSubanagram : string -> list string;
  alphagrams : list string -> list string
}.

End WordEngine.

(** ** QuizEngine *)

Module QuizEngine.

(** Modelled from the spec: [QuizEngine.h], which declares [MatchType],
    [ResponseStatus] and the fields of the class, is not among the sources.
    The spec gives [MatchType] as [Pattern | Anagram | Subanagram];
    [OtherMatchType] stands for any further enumerator value, which takes
    the [default] arm of the two switches. *)
Inductive MatchType : Type :=
| Pattern | Anagram | Subanagram | OtherMatchType.

(** Modelled from the spec: [ResponseStatus] is one of [Correct],
    [Incorrect], [Duplicate]. *)
Inductive ResponseStatus : Type := Correct | Incorrect | Duplicate.

(** Modelled from the spec: the cursor and the three running totals are
    integers (their declarations are in the absent header); the answer and
    response containers are the ones the code uses. *)
Record t : Type := Build {
  wordEngine : WordEngine.t;
  quizQuestions : list string;
  quizType : MatchType;
  questionIndex : Z;
  quizTotal : Z;
  quizCorrect : Z;
  quizIncorrect : Z;
  correctResponses : gset string;
  correctUserResponses : gset string;
  incorrectUserResponses : list string
}.

(** [QString::null]. *)
Definition QString_null : string := "".

(** [quizQuestions.at (questionIndex)] is the end iterator when the index
    is not a position of the list; the question is then the null string. *)
Definition getQuestion (s : t) : string :=
  if questionIndex s <? 0 then QString_null
  else default QString_null (quizQuestions s !! Z.to_nat (questionIndex s)).

(** [questionIndex == quizQuestions.size() - 1].  Where [size()] is unsigned,
    [size() - 1] of an empty list is the largest unsigned value, and the
    cursor converts to it only from -1: the comparison of the integers has
    the same outcome. *)
Definition onLastQuestion (s : t) : bool :=
  questionIndex s =? Z.of_nat (length (quizQuestions s)) - 1.

Definition clearQuestion (s : t) : t :=
  Build (wordEngine s) (quizQuestions s) (quizType s) (questionIndex s)
        (quizTotal s) (quizCorrect s) (quizIncorrect s) ∅ ∅ [].

(** The answers the lexicon gives for a question under a match type. *)
Definition answersFor (e : WordEngine.t) (type : MatchType)
           (question : string) : list string :=
  match type with
  | Pattern => WordEngine.matchPattern e question
  | Anagram => WordEngine.matchAnagram e question
  | Subanagram => WordEngine.matchSubanagram e question
  | OtherMatchType => []
  end.

(** The loop that inserts every answer into [correctResponses]. *)
Definition insertAll (answers : list string) (set : gset string)
  : gset string :=
  foldl (fun acc answer => {[answer]} ∪ acc) set answers.

Definition prepareQuestion (s : t) : t :=
  let s := clearQuestion s in
  let question := getQuestion s in
  let answers := answersFor (wordEngine s) (quizType s) question in
  let correctResponses' := insertAll answers (correctResponses s) in
  Build (wordEngine s) (quizQuestions s) (quizType s) (questionIndex s)
        (quizTotal s + Z.of_nat (size correctResponses'))
        (quizCorrect s) (quizIncorrect s)
        correctResponses' (correctUserResponses s)
        (incorrectUserResponses s).

(** One iteration of the shuffle: exchange positions [i] and [rnum]. *)
Definition swapQuestions (i rnum : nat) (questions : list string)
  : list string :=
  match questions !! rnum, questions !! i with
  | Some atRnum, Some atI => <[i := atRnum]> (<[rnum := atI]> questions)
  | _, _ => questions
  end.

(** The shuffle loop.  [rand k] is the value of the [k]-th call of
    [std::rand()] (a value in [0 .. RAND_MAX]); the loop calls it once per
    iteration. *)
Definition shuffle (rand : nat -> Z) (questions : list string)
  : list string :=
  let num := length questions in
  foldl (fun qs i =>
           let rnum := Z.to_nat (Z.rem (rand i) (Z.of_nat num)) in
           if (rnum =? i)%nat then qs else swapQuestions i rnum qs)
        questions (seq 0 num).

(** [newQuiz (input, type, alphagrams, randomOrder)], on an engine in any
    state; [rand] supplies the values of [std::rand()]. *)
Definition newQuiz (input : string) (type : MatchType)
           (alphagrams randomOrder : bool) (rand : nat -> Z) (s : t) : t :=
  let e := wordEngine s in
  let cleared : list string := [] in
  let '(questions, type') :=
    if alphagrams then
      let '(matches, type') :=
        match type with
        | Pattern => (WordEngine.matchPattern e input, Anagram)
        | Anagram => (WordEngine.matchAnagram e input, type)
        | Subanagram => (WordEngine.matchSubanagram e input, type)
        | OtherMatchType => (cleared, type)
        end in
      (WordEngine.alphagrams e matches, type')
    else ((cleared ++ [input])%list, type) in
  let questions := if randomOrder then shuffle rand questions else questions in
  prepareQuestion
    (Build e questions type' 0 0 0 0
           (correctResponses s) (correctUserResponses s)
           (incorrectUserResponses s)).

(** [respond]: the returned status and the engine after the call. *)
Definition respond (response : string) (s : t) : ResponseStatus * t :=
  if bool_decide (response ∉ correctResponses s) then
    (Incorrect,
     Build (wordEngine s) (quizQuestions s) (quizType s) (questionIndex s)
           (quizTotal s) (quizCorrect s) (quizIncorrect s + 1)
           (correctResponses s) (correctUserResponses s)
           (incorrectUserResponses s ++ [response])%list)
  else if bool_decide (response ∈ correctUserResponses s) then
    (Duplicate, s)
  else
    (Correct,
     Build (wordEngine s) (quizQuestions s) (quizType s) (questionIndex s)
           (quizTotal s) (quizCorrect s + 1) (quizIncorrect s)
           (correctResponses s) ({[response]} ∪ correctUserResponses s)
           (incorrectUserResponses s)).

(** [nextQuestion]: the returned value and the engine after the call.  The
    function has a [return] statement on the last-question path only; on
    the advancing path control reaches the closing brace and no value is
    returned, which is [None] here. *)
Definition nextQuestion (s : t) : option bool * t :=
  if onLastQuestion s then (Some false, s)
  else
    (None,
     prepareQuestion
       (Build (wordEngine s) (quizQuestions s) (quizType s)
              (questionIndex s + 1)
              (quizTotal s) (quizCorrect s) (quizIncorrect s)
              (correctResponses s) (correctUserResponses s)
              (incorrectUserResponses s))).

(** [getMissed]: the loop over the answer set, from [begin()] to [end()],
    that collects the answers not found among the user's correct
    responses. *)
Definition getMissed (s : t) : list string :=
  foldl (fun responses answer =>
           if bool_decide (answer ∉ correctUserResponses s)
           then (responses ++ [answer])%list else responses)
        [] (Qt.set_members (correctResponses s)).

(** The calls a client makes between two [newQuiz] calls. *)
Inductive Call : Type :=
| CallRespond (response : string)
| CallNextQuestion.

Definition call (c : Call) (s : t) : t :=
  match c with
  | CallRespond response => (respond response s).2
  | CallNextQuestion => (nextQuestion s).2
  end.

Definition calls (cs : list Call) (s : t) : t := foldl (fun s c => call c s) s cs.

(** The number of [nextQuestion] calls in a sequence of calls. *)
Definition nextCalls (cs : list Call) : nat :=
  foldr (fun c n => match c with CallNextQuestion => S n | CallRespond _ => n end)
        0%nat cs.

(** The statuses the [respond] calls of a sequence return, in order. *)
Fixpoint statuses (cs : list Call) (s : t) : list ResponseStatus :=
  match cs with
  | [] => []
  | CallRespond response :: cs =>
      (respond response s).1 :: statuses cs (respond response s).2
  | CallNextQuestion :: cs => statuses cs (nextQuestion s).2
  end.

(** How often a status occurs in a list of statuses. *)
Definition countStatus (status : ResponseStatus) (l : list ResponseStatus)
  : nat :=
  foldr (fun x n =>
           match status, x with
           | Correct, Correct | Incorrect, Incorrect
           | Duplicate, Duplicate => S n
           | _, _ => n
           end) 0%nat l.

(** The number of different answers the lexicon has for a question. *)
Definition answerCount (e : WordEngine.t) (type : MatchType)
           (question : string) : Z :=
  Z.of_nat (size (list_to_set (answersFor e type question) : gset string)).

(** The engine states of a quiz session: the state [newQuiz] leaves,
    whatever the engine held before, and the states reached from it by
    [respond] and [nextQuestion]. *)
Inductive session : t -> Prop :=
| session_newQuiz input type alphagrams randomOrder rand s :
    session (newQuiz input type alphagrams randomOrder rand s)
| session_call c s : session s -> session (call c s).

End QuizEngine.

(** ** CrosswordGameBoard *)

Module CrosswordGameBoard.

(** [SquareType] is declared in [CrosswordGameBoard.h], which is not among
    the sources; these are the six enumerators [CrosswordGameBoard.cpp]
    names. *)
Inductive SquareType : Type :=
| Invalid | NoBonus | DoubleLetter | TripleLetter | DoubleWord | TripleWord.

#[global] Instance SquareType_eq_dec : EqDecision SquareType.
Proof. solve_decision. Defined.

Definition NUM_ROWS : Z := 15.
Definition NUM_COLUMNS : Z := 15.

(** The board holds [QList<QList<SquareType> > squareTypes]. *)
Record t : Type := Build { squareTypes : list (list SquareType) }.

(** [QList::operator[]] needs a valid index position: [None] stands for an
    index out of range, where the program has no defined result. *)
Definition QList_at {A : Type} (l : list A) (i : Z) : option A :=
  if i <? 0 then None else l !! Z.to_nat i.

Definition col1 : list SquareType :=
  [TripleWord; NoBonus; NoBonus; DoubleLetter; NoBonus;
   NoBonus; NoBonus; TripleWord; NoBonus; NoBonus;
   NoBonus; DoubleLetter; NoBonus; NoBonus; TripleWord].

Definition col2 : list SquareType :=
  [NoBonus; DoubleWord; NoBonus; NoBonus; NoBonus;
   TripleLetter; NoBonus; NoBonus; NoBonus; TripleLetter;
   NoBonus; NoBonus; NoBonus; DoubleWord; NoBonus].

Definition col3 : list SquareType :=
  [NoBonus; NoBonus; DoubleWord; NoBonus; NoBonus;
   NoBonus; DoubleLetter; NoBonus; DoubleLetter; NoBonus;
   NoBonus; NoBonus; DoubleWord; NoBonus; NoBonus].

Definition col4 : list SquareType :=
  [DoubleLetter; NoBonus; NoBonus; DoubleWord; NoBonus;
   NoBonus; NoBonus; DoubleLetter; NoBonus; NoBonus;
   NoBonus; DoubleWord; NoBonus; NoBonus; DoubleLetter].

Definition col5 : list SquareType :=
  [NoBonus; NoBonus; NoBonus; NoBonus; DoubleWord;
   NoBonus; NoBonus; NoBonus; NoBonus; NoBonus;
   DoubleWord; NoBonus; NoBonus; NoBonus; NoBonus].

Definition col6 : list SquareType :=
  [NoBonus; TripleLetter; NoBonus; NoBonus; NoBonus;
   TripleLetter; NoBonus; NoBonus; NoBonus; TripleLetter;
   NoBonus; NoBonus; NoBonus; TripleLetter; NoBonus].

Definition col7 : list SquareType :=
  [NoBonus; NoBonus; DoubleLetter; NoBonus; NoBonus;
   NoBonus; DoubleLetter; NoBonus; DoubleLetter; NoBonus;
   NoBonus; NoBonus; DoubleLetter; NoBonus; NoBonus].

Definition col8 : list SquareType :=
  [TripleWord; NoBonus; NoBonus; DoubleLetter; NoBonus;
   NoBonus; NoBonus; DoubleWord; NoBonus; NoBonus;
   NoBonus; DoubleLetter; NoBonus; NoBonus; TripleWord].

(** [initSquareTypes] appends the fifteen lists to [squareTypes]. *)
Definition initSquareTypes (board : t) : t :=
  Build (squareTypes board
         ++ [col1; col2; col3; col4; col5; col6; col7;
             col8; col7; col6; col5; col4; col3; col2; col1])%list.

(** The constructor: [initSquareTypes] on the empty member. *)
Definition construct : t := initSquareTypes (Build []).

(** [getSquareType (row, col)]: the guard, then [squareTypes[row][col]]. *)
Definition getSquareType (board : t) (row col : Z) : option SquareType :=
  if (row <? 0) || (row >? NUM_ROWS) || (col <? 0) || (col >? NUM_COLUMNS)
  then Some Invalid
  else
    match QList_at (squareTypes board) row with
    | Some types => QList_at types col
    | None => None
    end.

Definition getNumRows (board : t) : Z := NUM_ROWS.
Definition getNumColumns (board : t) : Z := NUM_COLUMNS.

End CrosswordGameBoard.

(** ** A stub lexicon and the sessions of the scenarios *)

Module Scenario.
Import QuizEngine.

(** The pattern [?at] matches "bat" and "cat"; the anagrams of "act" are
    "act" and "cat", those of "abt" are "bat" and "tab"; the alphagrams of
    "bat" and "cat" are "abt" and "act". *)
Definition lexicon : WordEngine.t :=
  WordEngine.Build
    (fun pattern => if String.eqb pattern "?at" then ["bat"; "cat"] else [])
    (fun letters =>
       if String.eqb letters "act" then ["act"; "cat"]
       else if String.eqb letters "abt" then ["bat"; "tab"]
       else [])
    (fun _ => [])
    (fun words =>
       (fun word =>
          if String.eqb word "bat" then "abt"
          else if String.eqb word "cat" then "act" else word) <$> words).

(** An engine on that lexicon before its first quiz. *)
Definition engine : t := Build lexicon [] Pattern 0 0 0 0 ∅ ∅ [].

(** The one-question anagram quiz on "act". *)
Definition actQuiz : t := newQuiz "act" Anagram false false (fun _ => 0) engine.

(** The two-question alphagram quiz selected by the pattern [?at]. *)
Definition patternQuiz : t :=
  newQuiz "?at" Pattern true false (fun _ => 0) engine.

(** A quiz without questions: no word matches the pattern. *)
Definition emptyQuiz : t :=
  newQuiz "zzz" Pattern true false (fun _ => 0) engine.

(** A lexicon whose questions differ in their number of answers: the
    pattern [?at] matches "eat" and "qat"; "aet" has four anagrams and "aqt"
    has one. *)
Definition unevenLexicon : WordEngine.t :=
  WordEngine.Build
    (fun pattern => if String.eqb pattern "?at" then ["eat"; "qat"] else [])
    (fun letters =>
       if String.eqb letters "aet" then ["ate"; "eat"; "eta"; "tea"]
       else if String.eqb letters "aqt" then ["qat"]
       else [])
    (fun _ => [])
    (fun words =>
       (fun word =>
          if String.eqb word "eat" then "aet"
          else if String.eqb word "qat" then "aqt" else word) <$> words).

Definition unevenEngine : t := Build unevenLexicon [] Pattern 0 0 0 0 ∅ ∅ [].

End Scenario.

(** * Properties *)

(** ** Arithmetic on [int] and the decimal conversions *)

Section CIntFacts.
Import CInt.

Lemma wrap_in_range z : in_range (wrap z).
Proof.
  unfold in_range, wrap, INT_MIN, INT_MAX.
  pose proof (Z.mod_pos_bound (z + 2147483648) 4294967296). lia.
Qed.

Lemma wrap_id z : in_range z -> wrap z = z.
Proof.
  unfold in_range, wrap, INT_MIN, INT_MAX. intros Hz.
  rewrite Z.mod_small; lia.
Qed.

Lemma wrap_add_l a b : wrap (wrap a + b) = wrap (a + b).
Proof.
  unfold wrap. f_equal.
  replace ((a + 2147483648) mod 4294967296 - 2147483648 + b + 2147483648)
    with ((a + 2147483648) mod 4294967296 + b) by lia.
  rewrite Z.add_mod_idemp_l by lia. f_equal. lia.
Qed.

Lemma wrap_add_r a b : wrap (a + wrap b) = wrap (a + b).
Proof. rewrite (Z.add_comm a), wrap_add_l. f_equal. lia. Qed.

Lemma in_rangeb_true z : in_range z -> in_rangeb z = true.
Proof.
  unfold in_range, in_rangeb. intros [Hlo Hhi].
  apply andb_true_iff. split; apply Z.leb_le; assumption.
Qed.

Lemma in_rangeb_range z : in_rangeb z = true -> in_range z.
Proof.
  unfold in_range, in_rangeb. intros [Hlo Hhi]%andb_true_iff.
  split; apply Z.leb_le; assumption.
Qed.

End CIntFacts.

Section QtFacts.
Import Qt.

Lemma trimRight_spaceFree s : spaceFree s = true -> trimRight s = s.
Proof.
  induction s as [|c rest IH]; [reflexivity|].
  cbn [spaceFree trimRight]. intros [Hc Hrest]%andb_true_iff.
  rewrite (IH Hrest). apply negb_true_iff in Hc. rewrite Hc.
  destruct rest; reflexivity.
Qed.

Lemma spaceFree_string_of_uint d :
  spaceFree (NilEmpty.string_of_uint d) = true.
Proof. induction d; cbn; try reflexivity; assumption. Qed.

(** A numeral written by [number] without its sign: it is read as it
    stands, as a numeral without sign. *)
Lemma toInt_unsigned d :
  d <> Decimal.Nil ->
  toInt (NilZero.string_of_uint d)
  = toIntDigits false (NilZero.string_of_uint d).
Proof.
  intros Hd. destruct d; try (exfalso; apply Hd; reflexivity); reflexivity.
Qed.

Lemma toIntDigits_string_of_uint negative d :
  d <> Decimal.Nil ->
  toIntDigits negative (NilZero.string_of_uint d)
  = let n := Z.of_int (if negative then Decimal.Neg d else Decimal.Pos d) in
    if CInt.in_rangeb n then Some n else None.
Proof.
  intros Hd. unfold toIntDigits.
  rewrite trimRight_spaceFree.
  - rewrite (NilZero.usu _ Hd). reflexivity.
  - destruct d; try reflexivity; apply (spaceFree_string_of_uint (_ d)).
Qed.

(** Printing an [int] and reading it back is the identity. *)
Lemma toInt_number n : CInt.in_range n -> toInt (number n) = Some n.
Proof.
  intros Hn. unfold number.
  assert (Hnil : forall q, Pos.to_uint q <> Decimal.Nil)
    by (intros q Hq; revert Hq; apply DecimalPos.Unsigned.to_uint_nonnil).
  pose proof (DecimalZ.of_to n) as Hback.
  destruct n as [|q|q]; cbn [Z.to_int] in *.
  - reflexivity.
  - cbn [NilZero.string_of_int].
    rewrite (toInt_unsigned _ (Hnil q)),
      (toIntDigits_string_of_uint false _ (Hnil q)).
    cbv zeta. rewrite Hback, (in_rangeb_true _ Hn). reflexivity.
  - cbn [NilZero.string_of_int]. unfold toInt. cbn [skipSpace].
    change (isSpace "-") with false. cbv iota.
    change (Ascii.eqb "-" "-") with true. cbv iota.
    rewrite (toIntDigits_string_of_uint true _ (Hnil q)).
    cbv zeta. rewrite Hback, (in_rangeb_true _ Hn). reflexivity.
Qed.

Lemma toIntDigits_in_range negative digits n :
  toIntDigits negative digits = Some n -> CInt.in_range n.
Proof.
  unfold toIntDigits. destruct (NilZero.uint_of_string _); [|discriminate].
  cbv zeta. destruct (CInt.in_rangeb _) eqn:Hr; [|discriminate].
  intros [= <-]. apply in_rangeb_range, Hr.
Qed.

(** What [toInt] accepts is an [int]. *)
Lemma toInt_in_range s n : toInt s = Some n -> CInt.in_range n.
Proof.
  unfold toInt. destruct (skipSpace s) as [|c rest]; [discriminate|].
  destruct (Ascii.eqb c "-"); [apply toIntDigits_in_range|].
  destruct (Ascii.eqb c "+"); apply toIntDigits_in_range.
Qed.

(** Numerals [toInt] reads: white space around the numeral and a [+] sign
    are accepted; a sign without digits, a second sign, white space inside
    the numeral, other characters and values that are no [int] are not. *)
Example toInt_examples :
  toInt "+3" = Some 3 /\ toInt " 4 " = Some 4 /\ toInt "-12" = Some (-12) /\
  toInt "007" = Some 7 /\ toInt "-0" = Some 0 /\
  toInt "2147483647" = Some 2147483647 /\
  toInt "-2147483648" = Some (-2147483648) /\
  toInt "" = None /\ toInt " " = None /\ toInt "-" = None /\
  toInt "+-3" = None /\ toInt "1 2" = None /\ toInt "- 3" = None /\
  toInt "3x" = None /\ toInt "2147483648" = None.
Proof. vm_compute. tauto. Qed.

Lemma entry_le_total : Total entry_le.
Proof. intros a b. unfold entry_le. apply (total String.le). Qed.

Lemma QMap_entries_perm (m : gmap string Z) : QMap_entries m ≡ₚ map_to_list m.
Proof. apply merge_sort_Permutation. Qed.

Lemma set_members_perm (X : gset string) : set_members X ≡ₚ elements X.
Proof. apply merge_sort_Permutation. Qed.

Lemma elem_of_set_members (X : gset string) w : w ∈ set_members X <-> w ∈ X.
Proof. rewrite set_members_perm. apply elem_of_elements. Qed.

Lemma set_members_sorted (X : gset string) :
  StronglySorted String.le (set_members X).
Proof. apply StronglySorted_merge_sort; apply _. Qed.

Lemma set_members_NoDup (X : gset string) : NoDup (set_members X).
Proof. rewrite set_members_perm. apply NoDup_elements. Qed.

End QtFacts.

(** ** QuizProgress: the persisted form *)

Section QuizProgressFacts.
Import Qt QuizProgress.

Lemma foldr_add_perm (l1 l2 : list Z) :
  l1 ≡ₚ l2 -> foldr Z.add 0 l1 = foldr Z.add 0 l2.
Proof. induction 1; simpl; lia. Qed.

Lemma sumCounts_entries (m : gmap string Z) :
  foldr Z.add 0 (QMap_entries m).*2 = sumCounts m.
Proof. apply foldr_add_perm. by rewrite QMap_entries_perm. Qed.

Lemma list_to_map_entries (m : gmap string Z) :
  list_to_map (reverse (QMap_entries m)) = m.
Proof.
  rewrite <- (list_to_map_to_list m) at 2.
  apply list_to_map_proper.
  - rewrite reverse_Permutation, QMap_entries_perm.
    apply NoDup_fst_map_to_list.
  - by rewrite reverse_Permutation, QMap_entries_perm.
Qed.

Lemma response_hasWord e :
  hasAttribute
    (setAttribute XML_RESPONSE_COUNT_ATTR (number e.2)
       (setAttribute XML_RESPONSE_WORD_ATTR e.1 ∅))
    XML_RESPONSE_WORD_ATTR = true.
Proof.
  unfold hasAttribute, setAttribute. apply bool_decide_eq_true.
  rewrite lookup_insert_ne by done. rewrite lookup_insert_eq. eauto.
Qed.

Lemma response_hasCount e :
  hasAttribute
    (setAttribute XML_RESPONSE_COUNT_ATTR (number e.2)
       (setAttribute XML_RESPONSE_WORD_ATTR e.1 ∅))
    XML_RESPONSE_COUNT_ATTR = true.
Proof.
  unfold hasAttribute, setAttribute. apply bool_decide_eq_true.
  rewrite lookup_insert_eq. eauto.
Qed.

(** The inner loop over the children [asDomElement] writes for a list of
    entries performs the counted add of every entry, in order. *)
Lemma readResponses_entries elemMissed (l : list (string * Z)) tmp :
  Forall (fun e => CInt.in_range e.2) l ->
  readResponses elemMissed (responseElement <$> l) tmp
  = Some (restore elemMissed l tmp).
Proof.
  intros Hl. revert tmp.
  induction Hl as [|e l He Hl IH]; intros tmp; [reflexivity|].
  rewrite fmap_cons. unfold responseElement at 1.
  cbn [readResponses].
  rewrite response_hasWord, response_hasCount. cbn [negb orb].
  unfold attribute, setAttribute.
  rewrite lookup_insert_eq. cbn [default from_option id].
  rewrite (toInt_number _ He).
  rewrite lookup_insert_ne by done. rewrite lookup_insert_eq.
  cbn [default from_option id].
  rewrite IH. reflexivity.
Qed.

Lemma restore_incorrect (l : list (string * Z)) tmp :
  CInt.in_range (incorrect tmp) ->
  restore false l tmp
  = Build (question tmp) (correct tmp)
          (CInt.wrap (incorrect tmp + foldr Z.add 0 l.*2)) (missed tmp)
          (list_to_map (reverse l) ∪ incorrectWords tmp) (missedWords tmp).
Proof.
  revert tmp. induction l as [|[w c] l IH]; intros tmp Hr.
  - cbn. rewrite Z.add_0_r, (wrap_id _ Hr), (left_id_L ∅ (∪)).
    by destruct tmp.
  - unfold restore in *. cbn [foldl]. rewrite IH by apply wrap_in_range.
    rewrite reverse_cons, list_to_map_app, <- (assoc_L (∪)).
    cbn. unfold CInt.add. rewrite wrap_add_l.
    rewrite <- insert_union_l, (left_id_L ∅ (∪)).
    f_equal. f_equal. lia.
Qed.

Lemma restore_missed (l : list (string * Z)) tmp :
  CInt.in_range (missed tmp) ->
  restore true l tmp
  = Build (question tmp) (correct tmp) (incorrect tmp)
          (CInt.wrap (missed tmp + foldr Z.add 0 l.*2))
          (incorrectWords tmp) (list_to_map (reverse l) ∪ missedWords tmp).
Proof.
  revert tmp. induction l as [|[w c] l IH]; intros tmp Hr.
  - cbn. rewrite Z.add_0_r, (wrap_id _ Hr), (left_id_L ∅ (∪)).
    by destruct tmp.
  - unfold restore in *. cbn [foldl]. rewrite IH by apply wrap_in_range.
    rewrite reverse_cons, list_to_map_app, <- (assoc_L (∪)).
    cbn. unfold CInt.add. rewrite wrap_add_l.
    rewrite <- insert_union_l, (left_id_L ∅ (∪)).
    f_equal. f_equal. lia.
Qed.

Lemma entries_in_range (m : gmap string Z) :
  map_Forall (fun _ count => CInt.in_range count) m ->
  Forall (fun e => CInt.in_range e.2) (QMap_entries m).
Proof.
  intros Hm. rewrite QMap_entries_perm.
  apply Forall_forall. intros [w c] Hin.
  apply elem_of_map_to_list in Hin. exact (Hm w c Hin).
Qed.

End QuizProgressFacts.

Section RoundTrip.
Import Qt QuizProgress.

(** The outer loop over the children [asDomElement] writes restores first
    the incorrect responses, then the missed ones. *)
Lemma readContainers_responses iw mw tmp :
  map_Forall (fun _ count => CInt.in_range count) iw ->
  map_Forall (fun _ count => CInt.in_range count) mw ->
  readContainers
    (responsesElement XML_INCORRECT_RESPONSES_ELEMENT iw
     ++ responsesElement XML_MISSED_RESPONSES_ELEMENT mw) tmp
  = Some (restore true (QMap_entries mw) (restore false (QMap_entries iw) tmp)).
Proof.
  intros Hiw Hmw. unfold responsesElement.
  destruct (decide (iw = ∅)) as [->|_], (decide (mw = ∅)) as [->|_];
    cbn [app readContainers];
    repeat (case_bool_decide; try done); cbn [negb andb];
    rewrite ?readResponses_entries by (by apply entries_in_range);
    cbn [readContainers];
    repeat (case_bool_decide; try done); cbn [negb andb];
    rewrite ?readResponses_entries by (by apply entries_in_range);
    reflexivity.
Qed.

Lemma top_hasQuestion q c :
  hasAttribute
    (setAttribute XML_CORRECT_ATTR c (setAttribute XML_QUESTION_ATTR q ∅))
    XML_QUESTION_ATTR = true.
Proof.
  unfold hasAttribute, setAttribute. apply bool_decide_eq_true.
  rewrite lookup_insert_ne by done. rewrite lookup_insert_eq. eauto.
Qed.

Lemma top_hasCorrect q c :
  hasAttribute
    (setAttribute XML_CORRECT_ATTR c (setAttribute XML_QUESTION_ATTR q ∅))
    XML_CORRECT_ATTR = true.
Proof.
  unfold hasAttribute, setAttribute. apply bool_decide_eq_true.
  rewrite lookup_insert_eq. eauto.
Qed.

(** Reading a written document: the two attributes come back, and the two
    running totals come back as the sums of the written counts. *)
Lemma readProgress_asDomElement p :
  intsInRange p ->
  readProgress (asDomElement p)
  = Some (Build (question p) (correct p)
                (CInt.wrap (sumCounts (incorrectWords p)))
                (CInt.wrap (sumCounts (missedWords p)))
                (incorrectWords p) (missedWords p)).
Proof.
  intros (Hq & Hc & Hiw & Hmw).
  unfold readProgress, asDomElement. cbn [tagName].
  rewrite bool_decide_eq_true_2 by reflexivity. cbn [negb].
  unfold readIntAttr.
  rewrite top_hasQuestion, top_hasCorrect.
  unfold attribute, setAttribute.
  rewrite lookup_insert_ne by done. rewrite !lookup_insert_eq.
  cbn [default from_option id].
  rewrite (toInt_number _ Hq), (toInt_number _ Hc).
  rewrite (readContainers_responses _ _ _ Hiw Hmw).
  rewrite restore_incorrect by (cbn; unfold CInt.in_range, CInt.INT_MIN, CInt.INT_MAX; lia).
  rewrite restore_missed by (cbn; unfold CInt.in_range, CInt.INT_MIN, CInt.INT_MAX; lia).
  cbn [question correct incorrect missed incorrectWords missedWords
       setQuestion setCorrect fresh].
  rewrite !sumCounts_entries, !list_to_map_entries, !(right_id_L ∅ (∪)).
  reflexivity.
Qed.

End RoundTrip.

Section Validation.
Import Qt QuizProgress.

(** Closes [is_Some None <-> false = true]. *)
Local Ltac none_vs_false :=
  split; [intros [? ?]; discriminate | intros ?; discriminate].

Lemma readResponses_is_Some elemMissed nodes tmp :
  is_Some (readResponses elemMissed nodes tmp)
  <-> forallb responseOk (visited nodes) = true.
Proof.
  revert tmp. induction nodes as [|[tag attrs children|data] nodes IH];
    intros tmp; cbn [readResponses visited forallb responseOk].
  - split; eauto.
  - destruct (hasAttribute attrs XML_RESPONSE_WORD_ATTR),
             (hasAttribute attrs XML_RESPONSE_COUNT_ATTR);
      cbn [negb orb andb]; try none_vs_false.
    destruct (toInt (attribute attrs XML_RESPONSE_COUNT_ATTR)) as [count|].
    + rewrite bool_decide_eq_true_2 by eauto. cbn [andb]. apply IH.
    + rewrite bool_decide_eq_false_2 by (intros [? [=]]).
      none_vs_false.
  - split; eauto.
Qed.

Lemma readContainers_is_Some nodes tmp :
  is_Some (readContainers nodes tmp)
  <-> forallb containerOk (visited nodes) = true.
Proof.
  revert tmp. induction nodes as [|[tag attrs children|data] nodes IH];
    intros tmp; cbn [readContainers visited forallb containerOk].
  - split; eauto.
  - destruct (bool_decide (tag = XML_MISSED_RESPONSES_ELEMENT)) eqn:Hm,
             (bool_decide (tag = XML_INCORRECT_RESPONSES_ELEMENT)) eqn:Hi;
      cbn [negb orb andb]; try none_vs_false.
    all: destruct (readResponses _ children tmp) as [tmp'|] eqn:Hr.
    all: try (assert (Hok : forallb responseOk (visited children) = true)
                by (eapply readResponses_is_Some; rewrite Hr; eauto);
              rewrite Hok; apply IH).
    all: assert (Hko : forallb responseOk (visited children) = false)
           by (apply not_true_is_false; intros Hok;
               eapply readResponses_is_Some in Hok; rewrite Hr in Hok;
               destruct Hok as [? [=]]).
    all: rewrite Hko; none_vs_false.
  - split; eauto.
Qed.

Lemma readIntAttr_is_Some attrs name store tmp :
  is_Some (readIntAttr attrs name store tmp) <-> intAttrOk attrs name = true.
Proof.
  unfold readIntAttr, intAttrOk.
  destruct (hasAttribute attrs name); cbn [negb orb]; [|split; eauto].
  destruct (toInt (attribute attrs name)).
  - rewrite bool_decide_eq_true_2 by eauto. split; eauto.
  - rewrite bool_decide_eq_false_2 by (intros [? [=]]).
    none_vs_false.
Qed.

(** The reader produces a scratch object exactly for the documents that
    validate. *)
Lemma readProgress_is_Some element :
  is_Some (readProgress element) <-> validates element = true.
Proof.
  unfold readProgress, validates.
  destruct element as [tag attrs children|data]; cbn [tagName].
  - destruct (bool_decide (tag = XML_TOP_ELEMENT)); cbn [negb andb];
      [|none_vs_false].
    pose proof (readIntAttr_is_Some attrs XML_QUESTION_ATTR setQuestion fresh)
      as Hq.
    destruct (readIntAttr attrs XML_QUESTION_ATTR setQuestion fresh)
      as [tmp1|].
    + rewrite (proj1 Hq) by eauto. cbn [andb].
      pose proof (readIntAttr_is_Some attrs XML_CORRECT_ATTR setCorrect tmp1)
        as Hc.
      destruct (readIntAttr attrs XML_CORRECT_ATTR setCorrect tmp1)
        as [tmp2|].
      * rewrite (proj1 Hc) by eauto. cbn [andb].
        apply readContainers_is_Some.
      * destruct (intAttrOk attrs XML_CORRECT_ATTR);
          [destruct (proj2 Hc eq_refl) as [? [=]]|].
        cbn [andb]. none_vs_false.
    + destruct (intAttrOk attrs XML_QUESTION_ATTR);
        [destruct (proj2 Hq eq_refl) as [? [=]]|].
      cbn [andb]. none_vs_false.
  - destruct (negb _); none_vs_false.
Qed.

(** The sibling loops end at the first node that is not an element: what
    follows a comment or a text node is not read. *)
Example readProgress_stops_at_non_element :
  readProgress
    (QDomElement "progress" ∅
       [QDomOther "a comment"; QDomElement "other" ∅ []])
  = Some fresh.
Proof. reflexivity. Qed.

End Validation.

(** ** QuizProgress: running totals and ranges *)

Section Totals.
Import Qt QuizProgress.

Lemma sumCounts_empty : sumCounts ∅ = 0.
Proof. unfold sumCounts. by rewrite map_to_list_empty. Qed.

Lemma sumCounts_insert_new (m : gmap string Z) w c :
  m !! w = None -> sumCounts (<[w := c]> m) = c + sumCounts m.
Proof.
  intros Hw. unfold sumCounts.
  rewrite (foldr_add_perm _ (((w, c) :: map_to_list m).*2)); [done|].
  by rewrite map_to_list_insert.
Qed.

Lemma sumCounts_insert_old (m : gmap string Z) w c v :
  m !! w = Some v -> sumCounts (<[w := c]> m) = c + sumCounts m - v.
Proof.
  intros Hw. rewrite <- (insert_delete_id m w v Hw) at 2.
  rewrite <- (insert_delete_eq m).
  rewrite !sumCounts_insert_new by apply lookup_delete_eq. lia.
Qed.

(** One more occurrence of a word: the sum of the counts goes up by one,
    as an [int]. *)
Lemma sumCounts_bump (m : gmap string Z) w :
  CInt.wrap (sumCounts (bump w m)) = CInt.wrap (sumCounts m + 1).
Proof.
  unfold bump. destruct (m !! w) as [v|] eqn:Hw.
  - rewrite (sumCounts_insert_old _ _ _ _ Hw). unfold CInt.incr, CInt.add.
    replace (CInt.wrap (v + 1) + sumCounts m - v)
      with ((sumCounts m - v) + CInt.wrap (v + 1)) by lia.
    rewrite wrap_add_r. f_equal. lia.
  - rewrite (sumCounts_insert_new _ _ _ Hw). f_equal. lia.
Qed.

Lemma totalsAgree_fresh : totalsAgree fresh.
Proof. split; cbn; by rewrite sumCounts_empty. Qed.

Lemma totalsAgree_addIncorrect w p :
  totalsAgree p -> totalsAgree (addIncorrect w p).
Proof.
  intros [Hi Hm]. split; cbn; [|done].
  rewrite sumCounts_bump, Hi. unfold CInt.incr, CInt.add.
  by rewrite wrap_add_l.
Qed.

Lemma totalsAgree_addMissed w p :
  totalsAgree p -> totalsAgree (addMissed w p).
Proof.
  intros [Hi Hm]. split; cbn; [done|].
  rewrite sumCounts_bump, Hm. unfold CInt.incr, CInt.add.
  by rewrite wrap_add_l.
Qed.

(** A counted add of a word that is not in the map keeps the totals. *)
Lemma totalsAgree_addCounted elemMissed w c p :
  wordsOf elemMissed p !! w = None ->
  totalsAgree p -> totalsAgree (addCounted elemMissed w c p).
Proof.
  intros Hw [Hi Hm]. destruct elemMissed; cbn in *; split; cbn; try done.
  - rewrite (sumCounts_insert_new _ _ _ Hw), Hm. unfold CInt.add.
    rewrite wrap_add_l. f_equal. lia.
  - rewrite (sumCounts_insert_new _ _ _ Hw), Hi. unfold CInt.add.
    rewrite wrap_add_l. f_equal. lia.
Qed.

(** The inner loop on a container whose words are new and pairwise
    different. *)
Lemma readResponses_totals elemMissed nodes tmp tmp' :
  readResponses elemMissed nodes tmp = Some tmp' ->
  NoDup (responseWord <$> visited nodes) ->
  (forall w, w ∈ responseWord <$> visited nodes ->
             wordsOf elemMissed tmp !! w = None) ->
  totalsAgree tmp ->
  totalsAgree tmp' /\
  wordsOf (negb elemMissed) tmp' = wordsOf (negb elemMissed) tmp /\
  (forall w, w ∉ responseWord <$> visited nodes ->
             wordsOf elemMissed tmp' !! w = wordsOf elemMissed tmp !! w).
Proof.
  revert tmp. induction nodes as [|[tag attrs children|data] nodes IH];
    intros tmp; cbn [readResponses visited fmap list_fmap].
  - intros [= <-] _ _ Ht. auto.
  - destruct (negb _ || negb _); [discriminate|].
    destruct (toInt _) as [count|]; [|discriminate].
    intros Hread [Hhead Htail]%NoDup_cons Hnew Ht.
    change (list_fmap _ _ responseWord (visited nodes))
      with (responseWord <$> visited nodes) in *.
    cbn [responseWord] in *.
    set (word := attribute attrs XML_RESPONSE_WORD_ATTR) in *.
    destruct (IH _ Hread Htail) as (Ht' & Hother & Hsame).
    + intros w Hw. assert (w <> word) by (intros ->; done).
      specialize (Hnew w (list_elem_of_further _ _ _ Hw)).
      destruct elemMissed; cbn in *; by rewrite lookup_insert_ne.
    + apply totalsAgree_addCounted; [|done].
      apply Hnew. apply list_elem_of_here.
    + split; [done|]. split.
      * rewrite Hother. by destruct elemMissed.
      * intros w [Hne Hw]%not_elem_of_cons. rewrite (Hsame w Hw).
        destruct elemMissed; cbn; by rewrite lookup_insert_ne.
  - intros [= <-] _ _ Ht. auto.
Qed.

(** The outer loop on children that list no word twice for the same map
    and only words that are new to the scratch object. *)
Lemma readContainers_totals nodes tmp tmp' :
  readContainers nodes tmp = Some tmp' ->
  (forall elemMissed,
      NoDup (concat (containerWords elemMissed <$> visited nodes)) /\
      forall w, w ∈ concat (containerWords elemMissed <$> visited nodes) ->
                wordsOf elemMissed tmp !! w = None) ->
  totalsAgree tmp -> totalsAgree tmp'.
Proof.
  revert tmp. induction nodes as [|[tag attrs children|data] nodes IH];
    intros tmp; cbn [readContainers visited fmap list_fmap concat].
  - by intros [= <-].
  - change (list_fmap _ _ ?f (visited nodes)) with (f <$> visited nodes).
    destruct (negb _ && negb _); [discriminate|].
    set (elemMissed := bool_decide (tag = XML_MISSED_RESPONSES_ELEMENT)).
    destruct (readResponses elemMissed children tmp) as [tmp1|] eqn:Hread;
      [|discriminate].
    intros Hrest Hwords Ht.
    assert (Hmine : containerWords elemMissed (QDomElement tag attrs children)
                    = responseWord <$> visited children).
    { cbn [containerWords]. fold elemMissed.
      by rewrite bool_decide_eq_true_2. }
    assert (Hnot : containerWords (negb elemMissed)
                     (QDomElement tag attrs children) = []).
    { cbn [containerWords]. fold elemMissed.
      rewrite bool_decide_eq_false_2; [done|by destruct elemMissed]. }
    destruct (Hwords elemMissed) as [Hnd Hnew]. rewrite Hmine in Hnd, Hnew.
    apply NoDup_app in Hnd as (Hnd1 & Hdisj & Hnd2).
    destruct (readResponses_totals _ _ _ _ Hread Hnd1) as (Ht1 & Hother & Hsame);
      [intros w Hw; apply Hnew, elem_of_app; auto | done |].
    apply (IH _ Hrest); [|done].
    intros em. destruct (Hwords em) as [Hnd' Hnew'].
    destruct (decide (em = elemMissed)) as [->|Hne].
    + split; [done|]. intros w Hw.
      rewrite Hsame; [apply Hnew, elem_of_app; auto|].
      intros Hin. by apply (Hdisj w).
    + assert (em = negb elemMissed) as -> by (by destruct em, elemMissed).
      rewrite Hnot in Hnd', Hnew'. cbn [app] in Hnd', Hnew'.
      split; [done|]. intros w Hw. rewrite Hother. by apply Hnew'.
  - by intros [= <-].
Qed.

Lemma readIntAttr_fields attrs name store tmp tmp' :
  (forall n p, incorrect (store n p) = incorrect p /\
               missed (store n p) = missed p /\
               incorrectWords (store n p) = incorrectWords p /\
               missedWords (store n p) = missedWords p) ->
  readIntAttr attrs name store tmp = Some tmp' ->
  incorrect tmp' = incorrect tmp /\ missed tmp' = missed tmp /\
  incorrectWords tmp' = incorrectWords tmp /\
  missedWords tmp' = missedWords tmp.
Proof.
  intros Hstore. unfold readIntAttr.
  destruct (hasAttribute attrs name); [|by intros [= <-]].
  destruct (toInt _) as [n|]; [|discriminate].
  intros [= <-]. apply Hstore.
Qed.

(** A document that lists no word twice for the same map is read into an
    object whose totals are the sums of its counts. *)
Lemma readProgress_totals element tmp :
  noWordTwice element -> readProgress element = Some tmp -> totalsAgree tmp.
Proof.
  intros [Hnd0 Hnd1]. unfold readProgress.
  destruct (negb _); [discriminate|].
  destruct element as [tag attrs children|data]; [|discriminate].
  destruct (readIntAttr attrs XML_QUESTION_ATTR setQuestion fresh)
    as [tmp1|] eqn:H1; [|discriminate].
  destruct (readIntAttr attrs XML_CORRECT_ATTR setCorrect tmp1)
    as [tmp2|] eqn:H2; [|discriminate].
  apply readIntAttr_fields in H1 as (Hi1 & Hm1 & Hiw1 & Hmw1); [|done].
  apply readIntAttr_fields in H2 as (Hi2 & Hm2 & Hiw2 & Hmw2); [|done].
  intros Hread. apply (readContainers_totals _ _ _ Hread).
  - intros [|]; (split; [done|]); intros w _; cbn [wordsOf].
    + by rewrite Hmw2, Hmw1.
    + by rewrite Hiw2, Hiw1.
  - split.
    + rewrite Hi2, Hi1, Hiw2, Hiw1. apply totalsAgree_fresh.
    + rewrite Hm2, Hm1, Hmw2, Hmw1. apply totalsAgree_fresh.
Qed.

(** *** Every number of a buildable object is an [int] *)

Lemma bump_in_range w (m : gmap string Z) :
  map_Forall (fun _ count => CInt.in_range count) m ->
  map_Forall (fun _ count => CInt.in_range count) (bump w m).
Proof.
  intros Hm. unfold bump. destruct (m !! w);
    (apply map_Forall_insert_2; [|done]).
  - apply wrap_in_range.
  - by vm_compute.
Qed.

Lemma intsInRange_fresh : intsInRange fresh.
Proof.
  split; [by vm_compute|split; [by vm_compute|]].
  split; apply map_Forall_empty.
Qed.

Lemma addCounted_intsInRange elemMissed w c p :
  CInt.in_range c -> intsInRange p ->
  intsInRange (addCounted elemMissed w c p).
Proof.
  intros Hc (Hq & Hk & Hi & Hm).
  destruct elemMissed; (split; [done|split; [done|split]]); cbn;
    try done; by apply map_Forall_insert_2.
Qed.

Lemma readResponses_intsInRange elemMissed nodes tmp tmp' :
  readResponses elemMissed nodes tmp = Some tmp' ->
  intsInRange tmp -> intsInRange tmp'.
Proof.
  revert tmp. induction nodes as [|[tag attrs children|data] nodes IH];
    intros tmp; cbn [readResponses]; try by intros [= <-].
  destruct (negb _ || negb _); [discriminate|].
  destruct (toInt _) as [count|] eqn:Hcount; [|discriminate].
  intros Hread Hr. apply (IH _ Hread).
  apply addCounted_intsInRange; [|done]. by eapply toInt_in_range.
Qed.

Lemma readContainers_intsInRange nodes tmp tmp' :
  readContainers nodes tmp = Some tmp' ->
  intsInRange tmp -> intsInRange tmp'.
Proof.
  revert tmp. induction nodes as [|[tag attrs children|data] nodes IH];
    intros tmp; cbn [readContainers]; try by intros [= <-].
  destruct (negb _ && negb _); [discriminate|].
  destruct (readResponses _ children tmp) as [tmp1|] eqn:Hread;
    [|discriminate].
  intros Hrest Hr. apply (IH _ Hrest).
  by eapply readResponses_intsInRange.
Qed.

Lemma readIntAttr_intsInRange attrs name store tmp tmp' :
  (forall n p, CInt.in_range n -> intsInRange p -> intsInRange (store n p)) ->
  readIntAttr attrs name store tmp = Some tmp' ->
  intsInRange tmp -> intsInRange tmp'.
Proof.
  intros Hstore. unfold readIntAttr.
  destruct (hasAttribute attrs name); [|by intros [= <-]].
  destruct (toInt _) as [n|] eqn:Hn; [|discriminate].
  intros [= <-] Hr. apply Hstore; [|done]. by eapply toInt_in_range.
Qed.

Lemma setQuestion_intsInRange n p :
  CInt.in_range n -> intsInRange p -> intsInRange (setQuestion n p).
Proof. intros Hn (? & ? & ? & ?). by split; [|split; [|split]]. Qed.

Lemma setCorrect_intsInRange n p :
  CInt.in_range n -> intsInRange p -> intsInRange (setCorrect n p).
Proof. intros Hn (? & ? & ? & ?). by split; [|split; [|split]]. Qed.

Lemma readProgress_intsInRange element tmp :
  readProgress element = Some tmp -> intsInRange tmp.
Proof.
  unfold readProgress. destruct (negb _); [discriminate|].
  destruct element as [tag attrs children|data]; [|discriminate].
  destruct (readIntAttr attrs XML_QUESTION_ATTR setQuestion fresh)
    as [tmp1|] eqn:H1; [|discriminate].
  destruct (readIntAttr attrs XML_CORRECT_ATTR setCorrect tmp1)
    as [tmp2|] eqn:H2; [|discriminate].
  intros Hread. apply (readContainers_intsInRange _ _ _ Hread).
  apply (readIntAttr_intsInRange _ _ _ _ _ setCorrect_intsInRange H2).
  apply (readIntAttr_intsInRange _ _ _ _ _ setQuestion_intsInRange H1).
  apply intsInRange_fresh.
Qed.

Lemma reachable_intsInRange p : reachable p -> intsInRange p.
Proof.
  induction 1 as [|q p Hq _ IH|c p Hc _ IH|w p _ IH|w c p Hc _ IH
                 |w p _ IH|w c p Hc _ IH|element p _ IH].
  - apply intsInRange_fresh.
  - by apply setQuestion_intsInRange.
  - by apply setCorrect_intsInRange.
  - destruct IH as (? & ? & ? & ?).
    split; [done|split; [done|split]]; cbn; try done.
    by apply bump_in_range.
  - by apply (addCounted_intsInRange false).
  - destruct IH as (? & ? & ? & ?).
    split; [done|split; [done|split]]; cbn; try done.
    by apply bump_in_range.
  - by apply (addCounted_intsInRange true).
  - unfold fromDomElement.
    destruct (readProgress element) as [tmp|] eqn:Hread; [|done].
    by eapply readProgress_intsInRange.
Qed.

End Totals.

Section QuizProgressClaims.
Import Qt QuizProgress.

(** C3, as stated, fails.  The object built by [addIncorrect ("zax", 5)]
    followed by [addIncorrect ("zax", 3)] has the running total 8 and the
    single entry [zax -> 3]; its document carries the entry only, and
    reading it back gives the running total 3. *)
Lemma roundtrip_counterexample :
  let p := addIncorrectCount "zax" 3 (addIncorrectCount "zax" 5 fresh) in
  reachable p /\
  getNumIncorrect p = 8 /\
  fromDomElement (asDomElement p) fresh
  = (true, addIncorrectCount "zax" 3 fresh) /\
  getNumIncorrect (fromDomElement (asDomElement p) fresh).2 = 3.
Proof.
  cbv zeta. split; [|split; [|split]].
  - do 2 (apply reachable_addIncorrectCount; [by vm_compute|]).
    apply reachable_fresh.
  - reflexivity.
  - vm_compute. reflexivity.
  - vm_compute. reflexivity.
Qed.

(** C3, amended: for every QuizProgress [p] reachable through the public
    operations whose two running totals are the sums (as [int]s) of the
    repeat counts of its two maps, reading the document written from [p]
    succeeds and replaces the target object, whatever it held, by [p]: all
    four counters and both maps are those of [p]. *)
Theorem roundtrip_when_totals_agree p this :
  reachable p -> totalsAgree p ->
  fromDomElement (asDomElement p) this = (true, p).
Proof.
  intros Hp [Hi Hm]. unfold fromDomElement.
  rewrite (readProgress_asDomElement p (reachable_intsInRange p Hp)).
  rewrite <- Hi, <- Hm. by destruct p.
Qed.

(** The condition on the totals is the one the round trip needs. *)
Lemma roundtrip_only_when_totals_agree p this :
  reachable p ->
  fromDomElement (asDomElement p) this = (true, p) -> totalsAgree p.
Proof.
  intros Hp. unfold fromDomElement.
  rewrite (readProgress_asDomElement p (reachable_intsInRange p Hp)).
  intros [= Hback]. unfold totalsAgree. rewrite <- Hback at 1 3.
  split; reflexivity.
Qed.

Lemma roundtrip_when_totals_agree_witness :
  let p := addIncorrect "zax" (addIncorrect "zax" fresh) in
  incorrectWords p !! "zax" = Some 2 /\ getNumIncorrect p = 2 /\
  fromDomElement (asDomElement p) fresh = (true, p).
Proof.
  cbv zeta. split; [reflexivity|split; [reflexivity|]].
  apply (roundtrip_when_totals_agree
           (addIncorrect "zax" (addIncorrect "zax" fresh)) fresh).
  - do 2 apply reachable_addIncorrect. apply reachable_fresh.
  - split; vm_compute; reflexivity.
Defined.

(** C4: the validation of [fromDomElement] ends at the first child that is
    not an element.  An unknown child tag, or a response element without a
    [count], makes the call return [false] and leaves the object untouched
    when only elements come before it; after a comment or a text node the
    same child is not looked at, the call returns [true] and the object is
    replaced by what was read up to that node.  For every document the call
    returns [true] exactly when the elements it visits are well formed
    ([validates]), and the remainder of the claim holds for every document
    and every object: a call either returns [false] and leaves the object
    as it was, or returns [true] and replaces the object by a state that
    does not depend on what the object held. *)
Theorem fromDomElement_accepts_unknown_tag :
  let this := addIncorrect "zax" fresh in
  let bogus := QDomElement "bogus" ∅ [] in
  let short := QDomElement "response" {[ "word" := "zax" ]} [] in
  let full :=
    QDomElement "response" {[ "word" := "qat"; "count" := "2" ]} [] in
  fromDomElement (QDomElement "progress" ∅ [bogus]) this = (false, this) /\
  fromDomElement (QDomElement "progress" ∅ [QDomOther "x"; bogus]) this
  = (true, fresh) /\
  fromDomElement
    (QDomElement "progress" ∅
       [QDomElement "incorrect-responses" ∅ [full; short]]) this
  = (false, this) /\
  fromDomElement
    (QDomElement "progress" ∅
       [QDomElement "incorrect-responses" ∅ [full; QDomOther "x"; short]])
    this
  = (true, addIncorrectCount "qat" 2 fresh) /\
  (forall element p,
     (fromDomElement element p).1 = validates element /\
     (fromDomElement element p = (false, p) \/
      exists tmpProgress,
        forall other, fromDomElement element other = (true, tmpProgress))).
Proof.
  cbv zeta. split; [vm_compute; reflexivity|].
  split; [vm_compute; reflexivity|].
  split; [vm_compute; reflexivity|].
  split; [vm_compute; reflexivity|].
  intros element p. pose proof (readProgress_is_Some element) as Hv.
  unfold fromDomElement.
  destruct (readProgress element) as [tmpProgress|]; cbn [fst].
  - split; [symmetry; apply Hv; eauto|].
    right. exists tmpProgress. intros other. reflexivity.
  - split; [|left; reflexivity].
    destruct (validates element); [|reflexivity].
    destruct (proj2 Hv eq_refl) as [? [=]].
Qed.

(** C6, as stated, fails.  After [addIncorrect ("zax", 5)] and
    [addIncorrect ("zax", 3)] on a fresh object the incorrect counter is 8
    while the incorrect map is [zax -> 3], whose values sum to 3; the same
    holds for the missed counter and map, and for the object read from a
    document that lists the word twice. *)
Lemma totals_counterexample :
  let p := addIncorrectCount "zax" 3 (addIncorrectCount "zax" 5 fresh) in
  let q := addMissedCount "zax" 3 (addMissedCount "zax" 5 fresh) in
  let element :=
    QDomElement "progress" ∅
      [QDomElement "incorrect-responses" ∅
         [QDomElement "response" {[ "word" := "zax"; "count" := "5" ]} [];
          QDomElement "response" {[ "word" := "zax"; "count" := "3" ]} []]] in
  reachable p /\ getNumIncorrect p = 8 /\ sumCounts (getIncorrect p) = 3 /\
  reachable q /\ getNumMissed q = 8 /\ sumCounts (getMissed q) = 3 /\
  fromDomElement element fresh = (true, p).
Proof.
  cbv zeta.
  split; [|split; [|split; [|split; [|split; [|split]]]]];
    try (vm_compute; reflexivity).
  - do 2 (apply reachable_addIncorrectCount; [by vm_compute|]).
    apply reachable_fresh.
  - do 2 (apply reachable_addMissedCount; [by vm_compute|]).
    apply reachable_fresh.
Qed.

(** C6, amended: for every QuizProgress reachable from a fresh object by
    [addIncorrect (word)], [addMissed (word)], the counted overloads applied
    to a word that is not yet in the map, and [fromDomElement] on documents
    that list no word twice for the same map, the incorrect counter is the
    sum of the values of the incorrect map and the missed counter the sum of
    the values of the missed map, in [int] arithmetic; they are equal
    outright whenever the sum is within the range of [int]. *)
Theorem totals_agree_without_overwrite p :
  reachableNoOverwrite p ->
  getNumIncorrect p = CInt.wrap (sumCounts (getIncorrect p)) /\
  getNumMissed p = CInt.wrap (sumCounts (getMissed p)) /\
  (CInt.in_range (sumCounts (getIncorrect p)) ->
   getNumIncorrect p = sumCounts (getIncorrect p)) /\
  (CInt.in_range (sumCounts (getMissed p)) ->
   getNumMissed p = sumCounts (getMissed p)).
Proof.
  intros Hp.
  assert (Ht : totalsAgree p).
  { induction Hp as [|q p Hq _ IH|c p Hc _ IH|w p _ IH|w c p Hc Hw _ IH
                    |w p _ IH|w c p Hc Hw _ IH|element p Hdoc _ IH].
    - apply totalsAgree_fresh.
    - exact IH.
    - exact IH.
    - by apply totalsAgree_addIncorrect.
    - by apply (totalsAgree_addCounted false).
    - by apply totalsAgree_addMissed.
    - by apply (totalsAgree_addCounted true).
    - unfold fromDomElement.
      destruct (readProgress element) as [tmp|] eqn:Hread; [|exact IH].
      by apply (readProgress_totals element). }
  destruct Ht as [Hi Hm]. unfold getNumIncorrect, getNumMissed,
    getIncorrect, getMissed.
  split; [exact Hi|]. split; [exact Hm|]. split.
  - intros Hr. by rewrite Hi, wrap_id.
  - intros Hr. by rewrite Hm, wrap_id.
Qed.

Lemma totals_agree_without_overwrite_witness :
  let p := addIncorrectCount "qat" 4 (addIncorrect "zax" (addIncorrect "zax" fresh)) in
  sumCounts (getIncorrect p) = 6 /\ getNumIncorrect p = sumCounts (getIncorrect p).
Proof.
  cbv zeta. split; [vm_compute; reflexivity|].
  apply (totals_agree_without_overwrite
           (addIncorrectCount "qat" 4
              (addIncorrect "zax" (addIncorrect "zax" fresh)))).
  - apply noOverwrite_addIncorrectCount;
      [by vm_compute|vm_compute; reflexivity|].
    do 2 apply noOverwrite_addIncorrect. apply noOverwrite_fresh.
  - by vm_compute.
Defined.

End QuizProgressClaims.

(** ** QuizEngine: the session state machine *)

Section QuizEngineFacts.
Import QuizEngine.

(** *** What each operation leaves alone *)

Lemma prepareQuestion_frame s :
  let s' := prepareQuestion s in
  wordEngine s' = wordEngine s /\ quizQuestions s' = quizQuestions s /\
  quizType s' = quizType s /\ questionIndex s' = questionIndex s /\
  quizCorrect s' = quizCorrect s /\ quizIncorrect s' = quizIncorrect s /\
  correctUserResponses s' = ∅ /\ incorrectUserResponses s' = [].
Proof. cbv zeta. unfold prepareQuestion. cbn. tauto. Qed.

Lemma prepareQuestion_total s :
  quizTotal s <= quizTotal (prepareQuestion s).
Proof. unfold prepareQuestion. cbn. lia. Qed.

Lemma respond_frame response s :
  let s' := (respond response s).2 in
  wordEngine s' = wordEngine s /\ quizQuestions s' = quizQuestions s /\
  quizType s' = quizType s /\ questionIndex s' = questionIndex s /\
  quizTotal s' = quizTotal s /\ correctResponses s' = correctResponses s.
Proof.
  cbv zeta. unfold respond.
  repeat case_bool_decide; cbn; tauto.
Qed.

Lemma nextQuestion_frame s :
  let s' := (nextQuestion s).2 in
  wordEngine s' = wordEngine s /\ quizQuestions s' = quizQuestions s /\
  quizType s' = quizType s /\
  quizCorrect s' = quizCorrect s /\ quizIncorrect s' = quizIncorrect s.
Proof.
  cbv zeta. unfold nextQuestion.
  destruct (onLastQuestion s); cbn; tauto.
Qed.

Lemma call_frame c s :
  quizQuestions (call c s) = quizQuestions s /\
  quizType (call c s) = quizType s.
Proof.
  destruct c as [response|]; cbn [call].
  - pose proof (respond_frame response s). cbv zeta in *. tauto.
  - pose proof (nextQuestion_frame s). cbv zeta in *. tauto.
Qed.

Lemma calls_frame cs s :
  quizQuestions (calls cs s) = quizQuestions s /\
  quizType (calls cs s) = quizType s.
Proof.
  revert s. induction cs as [|c cs IH]; intros s; [done|].
  unfold calls in *. cbn [foldl].
  destruct (IH (call c s)) as [-> ->]. apply call_frame.
Qed.

(** *** The three outcomes of respond *)

Lemma respond_not_answer response s :
  response ∉ correctResponses s ->
  respond response s
  = (Incorrect,
     Build (wordEngine s) (quizQuestions s) (quizType s) (questionIndex s)
           (quizTotal s) (quizCorrect s) (quizIncorrect s + 1)
           (correctResponses s) (correctUserResponses s)
           (incorrectUserResponses s ++ [response])%list).
Proof. intros Hnot. unfold respond. by rewrite bool_decide_eq_true_2. Qed.

Lemma respond_repeated response s :
  response ∈ correctResponses s -> response ∈ correctUserResponses s ->
  respond response s = (Duplicate, s).
Proof.
  intros Hin Hu. unfold respond.
  rewrite bool_decide_eq_false_2 by tauto.
  by rewrite bool_decide_eq_true_2.
Qed.

Lemma respond_new_answer response s :
  response ∈ correctResponses s -> response ∉ correctUserResponses s ->
  respond response s
  = (Correct,
     Build (wordEngine s) (quizQuestions s) (quizType s) (questionIndex s)
           (quizTotal s) (quizCorrect s + 1) (quizIncorrect s)
           (correctResponses s) ({[response]} ∪ correctUserResponses s)
           (incorrectUserResponses s)).
Proof.
  intros Hin Hu. unfold respond.
  rewrite bool_decide_eq_false_2 by tauto.
  by rewrite bool_decide_eq_false_2.
Qed.

(** A response that is not an answer, given [n] times in a row. *)
Lemma respond_not_answer_iter response s n :
  response ∉ correctResponses s ->
  let sn := Nat.iter n (fun x => (respond response x).2) s in
  quizIncorrect sn = quizIncorrect s + Z.of_nat n /\
  incorrectUserResponses sn
  = (incorrectUserResponses s ++ replicate n response)%list.
Proof.
  intros Hnot. cbv zeta.
  assert (Hkeep : forall k,
             correctResponses (Nat.iter k (fun x => (respond response x).2) s)
             = correctResponses s).
  { induction k as [|k IHk]; simpl Nat.iter; [done|].
    etrans; [apply respond_frame|exact IHk]. }
  induction n as [|n [IHq IHl]]; simpl Nat.iter; cbn [replicate].
  - split; [lia|by rewrite app_nil_r].
  - rewrite respond_not_answer by (by rewrite Hkeep).
    cbn [snd quizIncorrect incorrectUserResponses].
    rewrite IHq, IHl. split; [lia|].
    rewrite <- app_assoc. f_equal.
    change (response :: replicate n response) with (replicate (S n) response).
    by rewrite replicate_S_end.
Qed.

(** *** The shuffle of a single question *)

Lemma shuffle_singleton rand question :
  shuffle rand [question] = [question].
Proof.
  unfold shuffle. cbn [length seq foldl].
  change (Z.of_nat 1) with 1. rewrite Z.rem_1_r. reflexivity.
Qed.

(** *** The two paths of nextQuestion *)

Lemma onLastQuestion_iff s :
  onLastQuestion s = true
  <-> questionIndex s = Z.of_nat (length (quizQuestions s)) - 1.
Proof. unfold onLastQuestion. apply Z.eqb_eq. Qed.

Lemma nextQuestion_on_last s :
  onLastQuestion s = true -> nextQuestion s = (Some false, s).
Proof. intros Hlast. unfold nextQuestion. by rewrite Hlast. Qed.

Lemma nextQuestion_advances s :
  onLastQuestion s = false ->
  (nextQuestion s).1 = None /\
  questionIndex (nextQuestion s).2 = questionIndex s + 1 /\
  correctUserResponses (nextQuestion s).2 = ∅ /\
  incorrectUserResponses (nextQuestion s).2 = [] /\
  correctResponses (nextQuestion s).2
  = insertAll
      (answersFor (wordEngine s) (quizType s) (getQuestion (nextQuestion s).2))
      ∅.
Proof. intros Hlast. unfold nextQuestion. rewrite Hlast. by cbn. Qed.

(** A question list without questions: the question is the null string, and
    the answers are what the lexicon gives for it. *)
Lemma prepareQuestion_no_questions s :
  quizQuestions s = [] ->
  correctResponses (prepareQuestion s)
  = insertAll (answersFor (wordEngine s) (quizType s) QString_null) ∅.
Proof.
  intros Hnone. unfold prepareQuestion, getQuestion. cbn. rewrite Hnone.
  by destruct (questionIndex s <? 0).
Qed.

(** *** The match type and the questions newQuiz sets *)

Lemma newQuiz_quizType input type alphagrams randomOrder rand s :
  quizType (newQuiz input type alphagrams randomOrder rand s)
  = if alphagrams
    then match type with Pattern => Anagram | _ => type end
    else type.
Proof. unfold newQuiz. by destruct alphagrams, type. Qed.

Lemma newQuiz_plain_questions input type randomOrder rand s :
  quizQuestions (newQuiz input type false randomOrder rand s) = [input].
Proof.
  unfold newQuiz. cbn [app]. destruct randomOrder; [|reflexivity].
  rewrite shuffle_singleton. reflexivity.
Qed.

(** *** The counters under one call *)

Lemma respond_counters response s :
  quizCorrect s <= quizCorrect (respond response s).2 /\
  quizIncorrect s <= quizIncorrect (respond response s).2 /\
  quizTotal s <= quizTotal (respond response s).2.
Proof.
  unfold respond. repeat case_bool_decide; cbn; lia.
Qed.

Lemma nextQuestion_counters s :
  quizCorrect s <= quizCorrect (nextQuestion s).2 /\
  quizIncorrect s <= quizIncorrect (nextQuestion s).2 /\
  quizTotal s <= quizTotal (nextQuestion s).2.
Proof.
  unfold nextQuestion. destruct (onLastQuestion s); cbn; lia.
Qed.

Lemma call_counters c s :
  quizCorrect s <= quizCorrect (call c s) /\
  quizIncorrect s <= quizIncorrect (call c s) /\
  quizTotal s <= quizTotal (call c s).
Proof.
  destruct c; cbn [call];
    [apply respond_counters | apply nextQuestion_counters].
Qed.

(** *** The user's correct responses are answers *)

Lemma session_userCorrect_subset s :
  session s -> correctUserResponses s ⊆ correctResponses s.
Proof.
  induction 1 as [input type alphagrams randomOrder rand s|c s Hs IH].
  - unfold newQuiz.
    repeat match goal with |- context [let '(_, _) := ?x in _] => destruct x end.
    unfold prepareQuestion. cbn. apply empty_subseteq.
  - destruct c as [response|]; cbn [call].
    + destruct (decide (response ∈ correctResponses s)) as [Hin|Hnot];
        [destruct (decide (response ∈ correctUserResponses s)) as [Hu|Hu]|].
      * by rewrite respond_repeated.
      * rewrite respond_new_answer by done. cbn [snd correctUserResponses
          correctResponses].
        apply union_least; [by apply singleton_subseteq_l|done].
      * by rewrite respond_not_answer.
    + unfold nextQuestion. destruct (onLastQuestion s); cbn; [done|].
      apply empty_subseteq.
Qed.

(** *** getMissed as a filter *)

Lemma collect_filter (P : string -> Prop) `{!forall w, Decision (P w)}
      (l acc : list string) :
  foldl (fun responses answer =>
           if bool_decide (P answer) then (responses ++ [answer])%list
           else responses) acc l
  = (acc ++ filter P l)%list.
Proof.
  revert acc. induction l as [|w l IH]; intros acc; cbn [foldl].
  - by rewrite filter_nil, app_nil_r.
  - rewrite IH, filter_cons. case_bool_decide.
    + rewrite decide_True by done. by rewrite <- app_assoc.
    + by rewrite decide_False by done.
Qed.

Lemma StronglySorted_filter_le (P : string -> Prop)
      `{!forall w, Decision (P w)} (l : list string) :
  StronglySorted String.le l -> StronglySorted String.le (filter P l).
Proof.
  induction 1 as [|w l Hl IH Hw]; [constructor|].
  rewrite filter_cons. case_decide; [|exact IH].
  constructor; [exact IH|].
  apply Forall_forall. intros v [_ Hv]%list_elem_of_filter.
  by eapply Forall_forall in Hw.
Qed.

Lemma getMissed_filter s :
  getMissed s
  = filter (fun w => w ∉ correctUserResponses s)
           (Qt.set_members (correctResponses s)).
Proof. unfold getMissed. by rewrite collect_filter. Qed.

Lemma elem_of_getMissed s w :
  w ∈ getMissed s <-> w ∈ correctResponses s /\ w ∉ correctUserResponses s.
Proof.
  rewrite getMissed_filter, list_elem_of_filter, elem_of_set_members. tauto.
Qed.

End QuizEngineFacts.

Section QuizEngineClaims.
Import QuizEngine.

(** C1: [respond] classifies in this order.  A response that is not an
    answer is appended to the incorrect responses, the incorrect total goes
    up by one and the status is [Incorrect], every time it is given.  An
    answer already among the user's correct responses gives [Duplicate] and
    changes nothing.  Any other answer joins the user's correct responses,
    the correct total goes up by one and the status is [Correct].  A second
    [respond] with the same answer gives [Duplicate] and leaves the state
    the first call produced. *)
Theorem respond_classifies s response :
  let s' := (respond response s).2 in
  (response ∉ correctResponses s ->
     (respond response s).1 = Incorrect /\
     incorrectUserResponses s' = (incorrectUserResponses s ++ [response])%list /\
     quizIncorrect s' = quizIncorrect s + 1 /\
     quizCorrect s' = quizCorrect s /\
     correctUserResponses s' = correctUserResponses s /\
     forall n,
       let sn := Nat.iter n (fun x => (respond response x).2) s in
       quizIncorrect sn = quizIncorrect s + Z.of_nat n /\
       incorrectUserResponses sn
       = (incorrectUserResponses s ++ replicate n response)%list) /\
  (response ∈ correctResponses s -> response ∈ correctUserResponses s ->
     respond response s = (Duplicate, s)) /\
  (response ∈ correctResponses s -> response ∉ correctUserResponses s ->
     (respond response s).1 = Correct /\
     correctUserResponses s' = {[response]} ∪ correctUserResponses s /\
     quizCorrect s' = quizCorrect s + 1 /\
     quizIncorrect s' = quizIncorrect s /\
     incorrectUserResponses s' = incorrectUserResponses s) /\
  (response ∈ correctResponses s ->
     respond response s' = (Duplicate, s')).
Proof.
  cbv zeta. split; [|split; [|split]].
  - intros Hnot. rewrite (respond_not_answer _ _ Hnot). cbn [fst snd].
    do 5 (split; [reflexivity|]).
    intros n. apply respond_not_answer_iter, Hnot.
  - apply respond_repeated.
  - intros Hin Hnew. rewrite (respond_new_answer _ _ Hin Hnew).
    cbn [fst snd]. repeat (split; [reflexivity|]). reflexivity.
  - intros Hin.
    destruct (decide (response ∈ correctUserResponses s)) as [Hu|Hu].
    + rewrite (respond_repeated _ _ Hin Hu). cbn [snd].
      by apply respond_repeated.
    + rewrite (respond_new_answer _ _ Hin Hu). cbn [snd].
      apply respond_repeated; cbn; [done|].
      apply elem_of_union_l, elem_of_singleton. reflexivity.
Qed.

Lemma respond_classifies_witness :
  let s := Scenario.actQuiz in
  quizQuestions s = ["act"] /\
  (respond "cat" s).1 = Correct /\
  respond "cat" (respond "cat" s).2 = (Duplicate, (respond "cat" s).2) /\
  (respond "dog" s).1 = Incorrect.
Proof.
  cbv zeta.
  assert (Hcat : "cat" ∈ correctResponses Scenario.actQuiz)
    by (apply (bool_decide_unpack _); vm_compute; exact I).
  assert (Hnew : "cat" ∉ correctUserResponses Scenario.actQuiz)
    by (apply (bool_decide_unpack _); vm_compute; exact I).
  assert (Hdog : "dog" ∉ correctResponses Scenario.actQuiz)
    by (apply (bool_decide_unpack _); vm_compute; exact I).
  split; [reflexivity|].
  destruct (respond_classifies Scenario.actQuiz "cat")
    as (_ & _ & Hcorrect & Hsecond).
  destruct (respond_classifies Scenario.actQuiz "dog") as (Hincorrect & _).
  split; [apply (Hcorrect Hcat Hnew)|].
  split; [apply (Hsecond Hcat)|].
  apply (Hincorrect Hdog).
Defined.

(** C2: after [newQuiz] with alphagrams the match type of the session is
    [Anagram] when [Pattern] was requested, and the requested type when
    [Anagram] or [Subanagram] was; without alphagrams it is the requested
    type and the question list is the single input.  [respond] and
    [nextQuestion] change neither, so this holds for the rest of the
    session, and the shuffle does not change it either. *)
Theorem newQuiz_effective_type input type randomOrder rand s cs :
  quizType (calls cs (newQuiz input Pattern true randomOrder rand s))
  = Anagram /\
  quizType (calls cs (newQuiz input Anagram true randomOrder rand s))
  = Anagram /\
  quizType (calls cs (newQuiz input Subanagram true randomOrder rand s))
  = Subanagram /\
  quizType (calls cs (newQuiz input type false randomOrder rand s)) = type /\
  quizQuestions (calls cs (newQuiz input type false randomOrder rand s))
  = [input].
Proof.
  split; [|split; [|split; [|split]]];
    rewrite ?(proj1 (calls_frame cs _)), ?(proj2 (calls_frame cs _)),
      ?newQuiz_quizType; try reflexivity.
  apply newQuiz_plain_questions.
Qed.

(** C5, at the failing input: [nextQuestion] never returns [true].  On the
    first of the two questions of the pattern quiz, [onLastQuestion] is
    false, the call moves to the second question and prepares it, and
    control leaves the function without a return value. *)
Theorem nextQuestion_never_returns_true :
  (forall s, (nextQuestion s).1 = Some false \/ (nextQuestion s).1 = None) /\
  (let s := Scenario.patternQuiz in
   quizQuestions s = ["abt"; "act"] /\ questionIndex s = 0 /\
   onLastQuestion s = false /\
   (nextQuestion s).1 = None /\
   questionIndex (nextQuestion s).2 = 1 /\
   getQuestion (nextQuestion s).2 = "act" /\
   Qt.set_members (correctResponses (nextQuestion s).2) = ["act"; "cat"]).
Proof.
  split.
  - intros s. unfold nextQuestion. destruct (onLastQuestion s); auto.
  - cbv zeta. repeat (split; [vm_compute; reflexivity|]).
    vm_compute; reflexivity.
Qed.

(** C7: in every session, at every point, [getMissed] lists the answers
    that are not among the user's correct responses, each once and in the
    ascending order in which the answer set is iterated; together with the
    user's correct responses they partition the answers. *)
Theorem getMissed_partition s :
  session s ->
  getMissed s
  = filter (fun w => w ∉ correctUserResponses s)
           (Qt.set_members (correctResponses s)) /\
  StronglySorted String.le (getMissed s) /\
  NoDup (getMissed s) /\
  (list_to_set (getMissed s) : gset string)
  = correctResponses s ∖ correctUserResponses s /\
  correctUserResponses s ∪ list_to_set (getMissed s) = correctResponses s /\
  correctUserResponses s ∩ list_to_set (getMissed s) = (∅ : gset string).
Proof.
  intros Hs. pose proof (session_userCorrect_subset s Hs) as Hsub.
  assert (Hset : (list_to_set (getMissed s) : gset string)
                 = correctResponses s ∖ correctUserResponses s).
  { apply set_eq. intros w.
    rewrite elem_of_list_to_set, elem_of_getMissed, elem_of_difference.
    tauto. }
  split; [apply getMissed_filter|].
  split; [rewrite getMissed_filter; apply StronglySorted_filter_le,
            set_members_sorted|].
  split; [rewrite getMissed_filter; apply NoDup_filter,
            set_members_NoDup|].
  split; [exact Hset|]. rewrite Hset. split.
  - apply set_eq. intros w.
    rewrite elem_of_union, elem_of_difference. split.
    + intros [Hu|[Hc _]]; [by apply Hsub|done].
    + intros Hc. destruct (decide (w ∈ correctUserResponses s)); auto.
  - apply set_eq. intros w.
    rewrite elem_of_intersection, elem_of_difference, elem_of_empty. tauto.
Qed.

Lemma getMissed_partition_witness :
  let s := (respond "dog" (respond "cat" (respond "cat" Scenario.actQuiz).2).2).2 in
  getMissed s = ["act"] /\
  correctUserResponses s ∪ list_to_set (getMissed s) = correctResponses s.
Proof.
  cbv zeta. split; [vm_compute; reflexivity|].
  apply (getMissed_partition
           (respond "dog" (respond "cat" (respond "cat" Scenario.actQuiz).2).2).2).
  apply (session_call (CallRespond "dog")
           (respond "cat" (respond "cat" Scenario.actQuiz).2).2).
  apply (session_call (CallRespond "cat") (respond "cat" Scenario.actQuiz).2).
  apply (session_call (CallRespond "cat") Scenario.actQuiz).
  apply session_newQuiz.
Defined.

(** C8: no call of [respond] or [nextQuestion] decreases the correct, the
    incorrect or the possible total, so the three are non-decreasing over
    every sequence of such calls. *)
Theorem counters_non_decreasing cs s :
  (forall c,
      quizCorrect s <= quizCorrect (call c s) /\
      quizIncorrect s <= quizIncorrect (call c s) /\
      quizTotal s <= quizTotal (call c s)) /\
  quizCorrect s <= quizCorrect (calls cs s) /\
  quizIncorrect s <= quizIncorrect (calls cs s) /\
  quizTotal s <= quizTotal (calls cs s).
Proof.
  split; [intros c; apply call_counters|].
  revert s. induction cs as [|c cs IH]; intros s.
  - cbn. lia.
  - unfold calls in *. cbn [foldl].
    pose proof (call_counters c s). pose proof (IH (call c s)). lia.
Qed.

(** C9: when the answer set is empty, every response is classified
    [Incorrect], appended to the incorrect responses and counted.  [respond]
    is a total function into the three statuses: there is no failure and no
    fourth result. *)
Theorem respond_without_answers s response :
  correctResponses s = ∅ ->
  respond response s
  = (Incorrect,
     Build (wordEngine s) (quizQuestions s) (quizType s) (questionIndex s)
           (quizTotal s) (quizCorrect s) (quizIncorrect s + 1)
           (correctResponses s) (correctUserResponses s)
           (incorrectUserResponses s ++ [response])%list).
Proof.
  intros Hempty. apply respond_not_answer. rewrite Hempty.
  apply not_elem_of_empty.
Qed.

(** A session without questions: the response is incorrect and counted. *)
Lemma respond_without_answers_witness :
  let s := Scenario.emptyQuiz in
  quizQuestions s = [] /\ correctResponses s = ∅ /\
  (respond "cat" s).1 = Incorrect /\
  quizIncorrect (respond "cat" s).2 = 1 /\
  incorrectUserResponses (respond "cat" s).2 = ["cat"].
Proof.
  cbv zeta.
  assert (Hempty : correctResponses Scenario.emptyQuiz = ∅)
    by (vm_compute; reflexivity).
  split; [reflexivity|]. split; [exact Hempty|].
  rewrite (respond_without_answers Scenario.emptyQuiz "cat" Hempty).
  cbn [fst snd quizIncorrect incorrectUserResponses].
  split; [reflexivity|split; reflexivity].
Defined.

(** C10: [respond] leaves the question list, the cursor, the answer set
    and the possible total (and the match type and the lexicon) as they
    were; what it can change is the user's correct responses, the
    incorrect responses and the correct and incorrect totals. *)
Theorem respond_changes_only_responses s response :
  let s' := (respond response s).2 in
  quizQuestions s' = quizQuestions s /\
  questionIndex s' = questionIndex s /\
  correctResponses s' = correctResponses s /\
  quizTotal s' = quizTotal s /\
  quizType s' = quizType s /\
  wordEngine s' = wordEngine s /\
  s' = Build (wordEngine s) (quizQuestions s) (quizType s) (questionIndex s)
             (quizTotal s) (quizCorrect s') (quizIncorrect s')
             (correctResponses s) (correctUserResponses s')
             (incorrectUserResponses s').
Proof.
  cbv zeta. pose proof (respond_frame response s) as H. cbv zeta in H.
  destruct H as (He & Hq & Ht & Hi & Htot & Hc).
  repeat (split; [assumption|]).
  destruct (respond response s).2; cbn in *. by subst.
Qed.

End QuizEngineClaims.

(** * Further properties of the code *)

(** ** QuizEngine: what holds throughout a session *)

Section QuizEngineSessions.
Import QuizEngine.

Lemma insertAll_list_to_set answers (X : gset string) :
  insertAll answers X = list_to_set answers ∪ X.
Proof.
  unfold insertAll. revert X.
  induction answers as [|w answers IH]; intros X; cbn [foldl list_to_set].
  - by rewrite (left_id_L ∅ (∪)).
  - rewrite IH. apply set_eq. intros v.
    rewrite !elem_of_union, !elem_of_singleton. tauto.
Qed.

(** The fields [newQuiz] leaves, whatever the engine held. *)
Lemma newQuiz_fields input type alphagrams randomOrder rand s :
  let s' := newQuiz input type alphagrams randomOrder rand s in
  wordEngine s' = wordEngine s /\ questionIndex s' = 0 /\
  quizCorrect s' = 0 /\ quizIncorrect s' = 0 /\
  correctUserResponses s' = ∅ /\ incorrectUserResponses s' = [] /\
  quizTotal s' = Z.of_nat (size (correctResponses s')).
Proof.
  cbv zeta. unfold newQuiz.
  repeat match goal with
         | |- context [let '(_, _) := ?x in _] => destruct x
         end.
  unfold prepareQuestion. cbn. tauto.
Qed.

(** The facts that every call preserves, in one induction. *)
Lemma session_invariant s :
  session s ->
  0 <= questionIndex s /\
  (quizQuestions s <> [] ->
   questionIndex s < Z.of_nat (length (quizQuestions s))) /\
  (forall w, w ∈ incorrectUserResponses s -> w ∉ correctResponses s) /\
  0 <= quizCorrect s - Z.of_nat (size (correctUserResponses s)) /\
  quizCorrect s - Z.of_nat (size (correctUserResponses s))
  <= quizTotal s - Z.of_nat (size (correctResponses s)) /\
  Z.of_nat (length (incorrectUserResponses s)) <= quizIncorrect s.
Proof.
  induction 1 as [input type alphagrams randomOrder rand s0|c s Hs IH].
  - destruct (newQuiz_fields input type alphagrams randomOrder rand s0)
      as (_ & Hi & Hc & Hic & Hu & Hl & Ht). cbv zeta in *.
    rewrite Hi, Hc, Hic, Hu, Hl, Ht, size_empty. cbn [length].
    split; [lia|]. split.
    + intros Hne. destruct (quizQuestions _); [done|]. cbn [length]. lia.
    + split; [intros w Hw; by apply elem_of_nil in Hw|]. lia.
  - destruct IH as (H0 & Hlt & Hlog & Hlo & Hhi & Hinc).
    pose proof (session_userCorrect_subset s Hs) as Hsub.
    destruct c as [response|]; cbn [call].
    + destruct (decide (response ∈ correctResponses s)) as [Hin|Hnot];
        [destruct (decide (response ∈ correctUserResponses s)) as [Hu|Hu]|].
      * rewrite respond_repeated by done. cbn [snd]. tauto.
      * rewrite respond_new_answer by done.
        cbn [snd questionIndex quizQuestions incorrectUserResponses
             correctResponses quizCorrect correctUserResponses quizTotal
             quizIncorrect].
        rewrite size_union by (apply disjoint_singleton_l; done).
        rewrite size_singleton. repeat (split; [first [done|lia]|]). lia.
      * rewrite respond_not_answer by done.
        cbn [snd questionIndex quizQuestions incorrectUserResponses
             correctResponses quizCorrect correctUserResponses quizTotal
             quizIncorrect].
        rewrite length_app. cbn [length].
        split; [done|]. split; [done|]. split.
        { intros w [Hw| ->%list_elem_of_singleton]%elem_of_app; auto. }
        lia.
    + unfold nextQuestion, onLastQuestion.
      destruct (questionIndex s =? _) eqn:Hlast; cbn [snd]; [tauto|].
      apply Z.eqb_neq in Hlast. unfold prepareQuestion. cbn.
      rewrite size_empty. apply subseteq_size in Hsub.
      split; [lia|]. split; [intros Hne; specialize (Hlt Hne); lia|].
      split; [intros w Hw; by apply elem_of_nil in Hw|]. lia.
Qed.

(** X1: in every session with at least one question the cursor is a position
    of the question list, and [getQuestion] is the question at the cursor. *)
Theorem session_cursor_in_range s :
  session s -> quizQuestions s <> [] ->
  0 <= questionIndex s < Z.of_nat (length (quizQuestions s)) /\
  quizQuestions s !! Z.to_nat (questionIndex s) = Some (getQuestion s) /\
  getQuestion s ∈ quizQuestions s.
Proof.
  intros Hs Hne. destruct (session_invariant s Hs) as (H0 & Hlt & _).
  specialize (Hlt Hne). split; [lia|].
  assert (Hat : quizQuestions s !! Z.to_nat (questionIndex s)
                = Some (getQuestion s)).
  { unfold getQuestion. rewrite (proj2 (Z.ltb_ge _ _) H0).
    destruct (lookup_lt_is_Some_2 (quizQuestions s)
                (Z.to_nat (questionIndex s))) as [q Hq]; [lia|].
    by rewrite Hq. }
  split; [exact Hat|]. by eapply list_elem_of_lookup_2.
Qed.

Lemma session_cursor_in_range_witness :
  let s := (nextQuestion Scenario.patternQuiz).2 in
  questionIndex s = 1 /\ getQuestion s ∈ quizQuestions s.
Proof.
  cbv zeta. split; [reflexivity|].
  apply (session_cursor_in_range (nextQuestion Scenario.patternQuiz).2).
  - apply (session_call CallNextQuestion Scenario.patternQuiz).
    apply session_newQuiz.
  - by vm_compute.
Defined.

(** X2: a session without questions is never on its last question: in each
    of its states [onLastQuestion] is false and the question is the null
    string, and [nextQuestion] moves the cursor one further and returns no
    value. *)
Theorem session_without_questions s :
  session s -> quizQuestions s = [] ->
  onLastQuestion s = false /\ getQuestion s = QString_null /\
  0 <= questionIndex s /\
  (nextQuestion s).1 = None /\
  questionIndex (nextQuestion s).2 = questionIndex s + 1 /\
  quizQuestions (nextQuestion s).2 = [].
Proof.
  intros Hs Hnone. destruct (session_invariant s Hs) as (H0 & _).
  assert (Hlast : onLastQuestion s = false).
  { unfold onLastQuestion. rewrite Hnone. cbn [length].
    apply Z.eqb_neq. lia. }
  split; [exact Hlast|]. split.
  { unfold getQuestion. rewrite Hnone.
    by destruct (questionIndex s <? 0). }
  split; [exact H0|].
  unfold nextQuestion. rewrite Hlast. cbn. by rewrite Hnone.
Qed.

Lemma session_without_questions_witness :
  let s := Scenario.emptyQuiz in
  onLastQuestion s = false /\ questionIndex (nextQuestion s).2 = 1.
Proof.
  cbv zeta.
  destruct (session_without_questions Scenario.emptyQuiz)
    as (Hlast & _ & _ & _ & Hnext & _).
  - apply session_newQuiz.
  - reflexivity.
  - split; [exact Hlast|exact Hnext].
Defined.

(** X3: in every session the correct total is between the number of the
    user's correct responses to the current question and the possible
    total, and the incorrect total is at least the number of incorrect
    responses logged for the current question. *)
Theorem session_totals_bounded s :
  session s ->
  Z.of_nat (size (correctUserResponses s)) <= quizCorrect s /\
  quizCorrect s <= quizTotal s /\
  Z.of_nat (length (incorrectUserResponses s)) <= quizIncorrect s.
Proof.
  intros Hs. destruct (session_invariant s Hs) as (_ & _ & _ & Hlo & Hhi & Hi).
  pose proof (subseteq_size _ _ (session_userCorrect_subset s Hs)). lia.
Qed.

Lemma session_totals_bounded_witness :
  let s := (respond "dog" (respond "cat" Scenario.actQuiz).2).2 in
  quizCorrect s = 1 /\ quizTotal s = 2 /\ quizCorrect s <= quizTotal s.
Proof.
  cbv zeta. split; [reflexivity|]. split; [reflexivity|].
  apply (session_totals_bounded
           (respond "dog" (respond "cat" Scenario.actQuiz).2).2).
  apply (session_call (CallRespond "dog") (respond "cat" Scenario.actQuiz).2).
  apply (session_call (CallRespond "cat") Scenario.actQuiz).
  apply session_newQuiz.
Defined.

(** X4: in every session the logged incorrect responses are no answers, the
    user's correct responses are answers, and no string is in both. *)
Theorem session_responses_sorted_out s :
  session s ->
  (forall w, w ∈ incorrectUserResponses s -> w ∉ correctResponses s) /\
  (forall w, w ∈ correctUserResponses s -> w ∈ correctResponses s) /\
  (forall w, w ∈ incorrectUserResponses s -> w ∉ correctUserResponses s).
Proof.
  intros Hs. destruct (session_invariant s Hs) as (_ & _ & Hlog & _).
  pose proof (session_userCorrect_subset s Hs) as Hsub.
  split; [exact Hlog|]. split; [intros w Hw; by apply Hsub|].
  intros w Hw Hu. by apply (Hlog w Hw), Hsub.
Qed.

Lemma session_responses_sorted_out_witness :
  let s := (respond "dog" (respond "cat" Scenario.actQuiz).2).2 in
  incorrectUserResponses s = ["dog"] /\ "dog" ∉ correctResponses s.
Proof.
  cbv zeta. split; [reflexivity|].
  destruct (session_responses_sorted_out
              (respond "dog" (respond "cat" Scenario.actQuiz).2).2)
    as (Hlog & _).
  - apply (session_call (CallRespond "dog") (respond "cat" Scenario.actQuiz).2).
    apply (session_call (CallRespond "cat") Scenario.actQuiz).
    apply session_newQuiz.
  - apply Hlog. apply list_elem_of_here.
Defined.

End QuizEngineSessions.

(** ** QuizEngine: the shuffle, the reset and the missed answers *)

Section QuizEngineOperations.
Import QuizEngine.

(** Writing [x] over a position that holds [a]: the list, with [a] put in
    front, is a rearrangement of the old list with [x] put in front. *)
Lemma insert_Permutation (q : list string) r a x :
  q !! r = Some a -> a :: <[r := x]> q ≡ₚ x :: q.
Proof.
  revert r. induction q as [|y q IH]; intros [|r] Hr; try done.
  - cbn in Hr. injection Hr as ->. apply Permutation_swap.
  - cbn in Hr. cbn [insert list_insert].
    change (list_insert r x q) with (<[r := x]> q).
    rewrite (Permutation_swap y a). rewrite (IH r Hr).
    apply Permutation_swap.
Qed.

Lemma swapQuestions_Permutation i rnum q : swapQuestions i rnum q ≡ₚ q.
Proof.
  unfold swapQuestions.
  destruct (q !! rnum) as [a|] eqn:Hr; [|done].
  destruct (q !! i) as [b|] eqn:Hi; [|done].
  revert i rnum Hr Hi.
  induction q as [|y q IH]; intros [|i] [|r] Hr Hi; try done; cbn in Hr, Hi.
  - injection Hr as ->. injection Hi as ->. done.
  - injection Hi as ->. cbn [insert list_insert].
    change (list_insert r b q) with (<[r := b]> q).
    by apply insert_Permutation.
  - injection Hr as ->. cbn [insert list_insert].
    change (list_insert i a q) with (<[i := a]> q).
    by apply insert_Permutation.
  - cbn [insert list_insert].
    change (list_insert i a (list_insert r b q))
      with (<[i := a]> (<[r := b]> q)).
    by rewrite (IH i r Hr Hi).
Qed.

Lemma swaps_Permutation (pick : nat -> nat) steps q :
  foldl (fun qs i =>
           if (pick i =? i)%nat then qs else swapQuestions i (pick i) qs)
        q steps ≡ₚ q.
Proof.
  revert q. induction steps as [|i steps IH]; intros q; cbn [foldl]; [done|].
  rewrite IH. destruct (_ =? i)%nat; [done|].
  apply swapQuestions_Permutation.
Qed.

Lemma shuffle_Permutation rand q : shuffle rand q ≡ₚ q.
Proof.
  unfold shuffle.
  apply (swaps_Permutation
           (fun i => Z.to_nat (Z.rem (rand i) (Z.of_nat (length q))))).
Qed.

(** The answer set and the possible total of the first question. *)
Lemma newQuiz_first_question input type alphagrams randomOrder rand s :
  let s' := newQuiz input type alphagrams randomOrder rand s in
  quizTotal s'
  = answerCount (wordEngine s') (quizType s') (getQuestion s').
Proof.
  cbv zeta. unfold newQuiz.
  repeat match goal with
         | |- context [let '(_, _) := ?x in _] => destruct x
         end.
  unfold prepareQuestion, answerCount. cbn.
  by rewrite insertAll_list_to_set, (right_id_L ∅ (∪)).
Qed.

(** X5: when [std::rand()] gives non-negative values, the shuffle of
    [newQuiz] only rearranges: the questions of a quiz in random order are a
    permutation of the questions of the same quiz in the given order, and
    the match type, the cursor and the correct and incorrect totals are the
    same.  The possible total is not: in either order it is the number of
    answers to the question that comes first, and the shuffle can bring
    another question to the front. *)
Theorem newQuiz_randomOrder_permutes input type alphagrams rand s :
  (forall k, 0 <= rand k) ->
  let shuffled := newQuiz input type alphagrams true rand s in
  let plain := newQuiz input type alphagrams false rand s in
  quizQuestions shuffled ≡ₚ quizQuestions plain /\
  length (quizQuestions shuffled) = length (quizQuestions plain) /\
  quizType shuffled = quizType plain /\
  questionIndex shuffled = questionIndex plain /\
  quizCorrect shuffled = quizCorrect plain /\
  quizIncorrect shuffled = quizIncorrect plain /\
  quizTotal shuffled
  = answerCount (wordEngine s) (quizType plain) (getQuestion shuffled) /\
  quizTotal plain
  = answerCount (wordEngine s) (quizType plain) (getQuestion plain).
Proof.
  intros _. cbv zeta.
  assert (Hperm : quizQuestions (newQuiz input type alphagrams true rand s)
                  ≡ₚ quizQuestions (newQuiz input type alphagrams false rand s)).
  { unfold newQuiz.
    repeat match goal with
           | |- context [let '(_, _) := ?x in _] => destruct x
           end.
    unfold prepareQuestion. cbn. apply shuffle_Permutation. }
  split; [exact Hperm|]. split; [by rewrite Hperm|].
  pose proof (newQuiz_first_question input type alphagrams true rand s)
    as Hshuffled.
  pose proof (newQuiz_first_question input type alphagrams false rand s)
    as Hplain.
  cbv zeta in Hshuffled, Hplain.
  rewrite Hshuffled, Hplain. rewrite !newQuiz_quizType.
  destruct (newQuiz_fields input type alphagrams true rand s)
    as (-> & -> & -> & -> & _).
  destruct (newQuiz_fields input type alphagrams false rand s)
    as (-> & -> & -> & -> & _).
  done.
Qed.

(** On a lexicon where "aet" has four anagrams and "aqt" one, the shuffle
    brings "aqt" to the front: the possible total is 1, against 4 in the
    given order. *)
Lemma newQuiz_randomOrder_permutes_witness :
  let rand := fun k : nat => 7 in
  let shuffled := newQuiz "?at" Pattern true true rand Scenario.unevenEngine in
  let plain := newQuiz "?at" Pattern true false rand Scenario.unevenEngine in
  quizQuestions shuffled = ["aqt"; "aet"] /\
  quizQuestions plain = ["aet"; "aqt"] /\
  quizTotal shuffled = 1 /\ quizTotal plain = 4 /\
  quizQuestions shuffled ≡ₚ quizQuestions plain.
Proof.
  cbv zeta. split; [reflexivity|]. split; [reflexivity|].
  split; [vm_compute; reflexivity|]. split; [vm_compute; reflexivity|].
  apply (newQuiz_randomOrder_permutes "?at" Pattern true (fun _ => 7)
           Scenario.unevenEngine).
  intros k. lia.
Defined.

(** X6: [newQuiz] resets the engine.  The state it leaves depends on its
    arguments and the lexicon only, not on the questions, answers, responses
    or totals the engine held; the cursor and the correct and incorrect
    totals are 0, no response is recorded, and the possible total is the
    number of answers to the first question. *)
Theorem newQuiz_resets input type alphagrams randomOrder rand s
        questions type0 index total correct incorrect answers given log :
  let s' := newQuiz input type alphagrams randomOrder rand s in
  newQuiz input type alphagrams randomOrder rand
    (Build (wordEngine s) questions type0 index total correct incorrect
           answers given log) = s' /\
  questionIndex s' = 0 /\ quizCorrect s' = 0 /\ quizIncorrect s' = 0 /\
  correctUserResponses s' = ∅ /\ incorrectUserResponses s' = [] /\
  quizTotal s' = Z.of_nat (size (correctResponses s')) /\
  getMissed s' = Qt.set_members (correctResponses s').
Proof.
  cbv zeta. split; [reflexivity|].
  destruct (newQuiz_fields input type alphagrams randomOrder rand s)
    as (_ & Hi & Hc & Hic & Hu & Hl & Ht). cbv zeta in *.
  repeat (split; [assumption|]).
  rewrite getMissed_filter, Hu.
  induction (Qt.set_members _) as [|w l IH]; [done|].
  rewrite filter_cons_True by apply not_elem_of_empty. by rewrite IH.
Qed.

(** X7: in every session [getMissed] has as many entries as there are
    answers the user has not given, and it is empty exactly when the user
    has given every answer. *)
Theorem getMissed_counts_remaining s :
  session s ->
  length (getMissed s)
  = (size (correctResponses s) - size (correctUserResponses s))%nat /\
  (getMissed s = [] <-> correctUserResponses s = correctResponses s).
Proof.
  intros Hs. pose proof (session_userCorrect_subset s Hs) as Hsub.
  assert (Hset : (list_to_set (getMissed s) : gset string)
                 = correctResponses s ∖ correctUserResponses s).
  { apply set_eq. intros w.
    rewrite elem_of_list_to_set, elem_of_getMissed, elem_of_difference.
    tauto. }
  assert (Hnd : NoDup (getMissed s)).
  { rewrite getMissed_filter. apply NoDup_filter, set_members_NoDup. }
  assert (Hlen : length (getMissed s)
                 = (size (correctResponses s)
                    - size (correctUserResponses s))%nat).
  { rewrite <- (size_list_to_set (C := gset string)) by done.
    rewrite Hset. by apply size_difference. }
  split; [exact Hlen|]. split.
  - intros Hnil. apply set_eq. intros w. split; [apply Hsub|].
    intros Hw. destruct (decide (w ∈ correctUserResponses s)); [done|].
    assert (w ∈ getMissed s) by (by apply elem_of_getMissed).
    rewrite Hnil in *. by apply elem_of_nil in H.
  - intros Heq. destruct (getMissed s) as [|w l] eqn:Hm; [done|].
    assert (Hw : w ∈ getMissed s) by (rewrite Hm; apply list_elem_of_here).
    apply elem_of_getMissed in Hw as [Hin Hnot]. by rewrite Heq in Hnot.
Qed.

Lemma getMissed_counts_remaining_witness :
  let s := (respond "act" (respond "cat" Scenario.actQuiz).2).2 in
  correctUserResponses s = correctResponses s /\ getMissed s = [].
Proof.
  cbv zeta.
  assert (Hall : correctUserResponses
                   (respond "act" (respond "cat" Scenario.actQuiz).2).2
                 = correctResponses
                     (respond "act" (respond "cat" Scenario.actQuiz).2).2)
    by (vm_compute; reflexivity).
  split; [exact Hall|].
  apply (getMissed_counts_remaining
           (respond "act" (respond "cat" Scenario.actQuiz).2).2).
  - apply (session_call (CallRespond "act") (respond "cat" Scenario.actQuiz).2).
    apply (session_call (CallRespond "cat") Scenario.actQuiz).
    apply session_newQuiz.
  - exact Hall.
Defined.

(** X8: a response classified [Correct] removes exactly that word from
    [getMissed] and keeps the order of the rest; a response classified
    [Incorrect] or [Duplicate] leaves [getMissed] as it was. *)
Theorem respond_updates_getMissed s response :
  getMissed (respond response s).2
  = match (respond response s).1 with
    | Correct => filter (fun w => w <> response) (getMissed s)
    | Incorrect | Duplicate => getMissed s
    end.
Proof.
  destruct (decide (response ∈ correctResponses s)) as [Hin|Hnot];
    [destruct (decide (response ∈ correctUserResponses s)) as [Hu|Hu]|].
  - by rewrite respond_repeated.
  - rewrite respond_new_answer by done. cbn [fst snd].
    rewrite !getMissed_filter.
    cbn [correctUserResponses correctResponses].
    rewrite list_filter_filter. apply list_filter_iff. intros w.
    rewrite not_elem_of_union, elem_of_singleton. tauto.
  - rewrite respond_not_answer by done. cbn [fst snd].
    by rewrite !getMissed_filter.
Qed.

Lemma size_list_to_set_le (l : list string) :
  (size (list_to_set l : gset string) <= length l)%nat.
Proof.
  induction l as [|w l IH]; cbn [list_to_set length].
  - by rewrite size_empty.
  - rewrite size_union_alt, size_singleton.
    pose proof (subseteq_size (list_to_set l ∖ {[w]}) (list_to_set l : gset string)
                  (subseteq_difference_l _ _ _ (reflexivity _))).
    lia.
Qed.

(** X9: [prepareQuestion] takes the answers of the lexicon as a set: an
    answer listed more than once counts once, the possible total grows by the
    number of different answers, which is at most the number of answers
    listed, and all of them are missed at first. *)
Theorem prepareQuestion_answer_set s :
  let answers := answersFor (wordEngine s) (quizType s) (getQuestion s) in
  let s' := prepareQuestion s in
  correctResponses s' = list_to_set answers /\
  quizTotal s' = quizTotal s + Z.of_nat (size (correctResponses s')) /\
  (size (correctResponses s') <= length answers)%nat /\
  (NoDup answers -> size (correctResponses s') = length answers) /\
  getMissed s' = Qt.set_members (list_to_set answers).
Proof.
  cbv zeta. unfold prepareQuestion. cbn.
  change (getQuestion (clearQuestion s)) with (getQuestion s).
  rewrite insertAll_list_to_set, (right_id_L ∅ (∪)).
  split; [done|]. split; [done|].
  set (answers := answersFor (wordEngine s) (quizType s) (getQuestion s)).
  split; [|split].
  - apply size_list_to_set_le.
  - intros Hnd. by apply size_list_to_set.
  - unfold getMissed. cbn [correctUserResponses correctResponses].
    rewrite collect_filter. cbn [app].
    induction (Qt.set_members _) as [|w l IH]; [done|].
    rewrite filter_cons_True by apply not_elem_of_empty. by rewrite IH.
Qed.

Lemma prepareQuestion_answer_set_witness :
  let s := Scenario.actQuiz in
  size (correctResponses (prepareQuestion s)) = 2%nat.
Proof.
  cbv zeta.
  destruct (prepareQuestion_answer_set Scenario.actQuiz)
    as (_ & _ & _ & Hnd & _). cbv zeta in Hnd.
  rewrite Hnd; [reflexivity|].
  apply (bool_decide_unpack _). vm_compute. exact I.
Defined.

End QuizEngineOperations.

(** ** QuizProgress: tallies, written documents and what a document reads as *)

Section QuizProgressOperations.
Import Qt QuizProgress.

Lemma incr_small n : 0 <= n < CInt.INT_MAX -> CInt.incr n = n + 1.
Proof.
  intros Hn. unfold CInt.incr, CInt.add. apply wrap_id.
  unfold CInt.in_range, CInt.INT_MIN, CInt.INT_MAX in *. lia.
Qed.

Lemma occurrences_snoc w words x :
  occurrences w (words ++ [x])
  = (occurrences w words + if decide (x = w) then 1 else 0)%nat.
Proof.
  unfold occurrences. rewrite filter_app, length_app. f_equal.
  rewrite filter_cons, filter_nil. by destruct (decide (x = w)).
Qed.

Lemma occurrences_le w words : (occurrences w words <= length words)%nat.
Proof. apply length_filter. Qed.

(** The repeat counts after one [bump] per word of a list. *)
Lemma bumps_lookup words w :
  Z.of_nat (length words) <= CInt.INT_MAX ->
  foldl (fun m word => bump word m) (∅ : gmap string Z) words !! w
  = if decide (occurrences w words = 0%nat) then None
    else Some (Z.of_nat (occurrences w words)).
Proof.
  induction words as [|x words IH] using rev_ind; intros Hlen; [done|].
  rewrite length_app in Hlen. cbn [length] in Hlen.
  rewrite foldl_app. cbn [foldl]. rewrite occurrences_snoc.
  specialize (IH ltac:(lia)). pose proof (occurrences_le w words) as Hle.
  set (m := foldl (fun m word => bump word m) ∅ words) in *.
  unfold bump. destruct (decide (x = w)) as [->|Hne].
  - rewrite IH. destruct (decide (occurrences w words = 0%nat)) as [H0|H0].
    + rewrite lookup_insert_eq, H0. done.
    + rewrite lookup_insert_eq, decide_False by lia.
      rewrite incr_small by (unfold CInt.INT_MAX in *; lia).
      f_equal. lia.
  - rewrite Nat.add_0_r.
    destruct (m !! x); by rewrite lookup_insert_ne.
Qed.

Lemma incrs_total words :
  Z.of_nat (length words) <= CInt.INT_MAX ->
  foldl (fun (n : Z) (_ : string) => CInt.incr n) 0 words
  = Z.of_nat (length words).
Proof.
  induction words as [|x words IH] using rev_ind; intros Hlen; [done|].
  rewrite length_app in *. cbn [length] in *.
  rewrite foldl_app. cbn [foldl]. rewrite IH by lia.
  rewrite incr_small by (unfold CInt.INT_MAX in *; lia). lia.
Qed.

Lemma tallyIncorrect_fields words p :
  tallyIncorrect words p
  = Build (question p) (correct p)
          (foldl (fun (n : Z) (_ : string) => CInt.incr n) (incorrect p) words)
          (missed p)
          (foldl (fun m word => bump word m) (incorrectWords p) words)
          (missedWords p).
Proof.
  unfold tallyIncorrect. revert p.
  induction words as [|x words IH]; intros p; cbn [foldl]; [by destruct p|].
  by rewrite IH.
Qed.

Lemma tallyMissed_fields words p :
  tallyMissed words p
  = Build (question p) (correct p) (incorrect p)
          (foldl (fun (n : Z) (_ : string) => CInt.incr n) (missed p) words)
          (incorrectWords p)
          (foldl (fun m word => bump word m) (missedWords p) words).
Proof.
  unfold tallyMissed. revert p.
  induction words as [|x words IH]; intros p; cbn [foldl]; [by destruct p|].
  by rewrite IH.
Qed.

(** X10: one [addIncorrect (word)] per word of a list, on a fresh object,
    builds the frequency table of the list: the incorrect counter is the
    length of the list, a word has as its repeat count the number of its
    occurrences, a word that does not occur has no entry, and the missed side
    stays empty; likewise [addMissed (word)] for the missed side.  The list
    is no longer than the largest [int]. *)
Theorem single_adds_tally words w :
  Z.of_nat (length words) <= CInt.INT_MAX ->
  let count :=
    if decide (occurrences w words = 0%nat) then None
    else Some (Z.of_nat (occurrences w words)) in
  (getNumIncorrect (tallyIncorrect words fresh) = Z.of_nat (length words) /\
   getIncorrect (tallyIncorrect words fresh) !! w = count /\
   getNumMissed (tallyIncorrect words fresh) = 0 /\
   getMissed (tallyIncorrect words fresh) = ∅) /\
  (getNumMissed (tallyMissed words fresh) = Z.of_nat (length words) /\
   getMissed (tallyMissed words fresh) !! w = count /\
   getNumIncorrect (tallyMissed words fresh) = 0 /\
   getIncorrect (tallyMissed words fresh) = ∅).
Proof.
  intros Hlen. cbv zeta.
  rewrite tallyIncorrect_fields, tallyMissed_fields.
  unfold getNumIncorrect, getIncorrect, getNumMissed, getMissed.
  cbn [incorrect incorrectWords missed missedWords fresh].
  rewrite (incrs_total words Hlen), (bumps_lookup words w Hlen). done.
Qed.

Lemma single_adds_tally_witness :
  getIncorrect (tallyIncorrect ["zax"; "qat"; "zax"] fresh) !! "zax" = Some 2
  /\ getNumIncorrect (tallyIncorrect ["zax"; "qat"; "zax"] fresh) = 3.
Proof.
  destruct (single_adds_tally ["zax"; "qat"; "zax"] "zax") as [(Hn & Hw & _) _].
  - by vm_compute.
  - split; [exact Hw|exact Hn].
Defined.

(** X11: a counted add of a word that is already in the map replaces its
    count; the running total then exceeds the sum of the counts by the
    count that was replaced, in [int] arithmetic. *)
Theorem counted_add_on_present_word p word count old :
  totalsAgree p ->
  (getIncorrect p !! word = Some old ->
   getIncorrect (addIncorrectCount word count p) !! word = Some count /\
   getNumIncorrect (addIncorrectCount word count p)
   = CInt.wrap (sumCounts (getIncorrect (addIncorrectCount word count p))
                + old)) /\
  (getMissed p !! word = Some old ->
   getMissed (addMissedCount word count p) !! word = Some count /\
   getNumMissed (addMissedCount word count p)
   = CInt.wrap (sumCounts (getMissed (addMissedCount word count p)) + old)).
Proof.
  intros [Hi Hm].
  unfold getIncorrect, getNumIncorrect, getMissed, getNumMissed.
  split; intros Hold; cbn; (split; [apply lookup_insert_eq|]).
  - rewrite (sumCounts_insert_old _ _ _ _ Hold), Hi. unfold CInt.add.
    rewrite wrap_add_l. f_equal. lia.
  - rewrite (sumCounts_insert_old _ _ _ _ Hold), Hm. unfold CInt.add.
    rewrite wrap_add_l. f_equal. lia.
Qed.

Lemma counted_add_on_present_word_witness :
  let p := addIncorrectCount "zax" 5 fresh in
  getNumIncorrect (addIncorrectCount "zax" 3 p)
  = CInt.wrap (sumCounts (getIncorrect (addIncorrectCount "zax" 3 p)) + 5).
Proof.
  cbv zeta.
  destruct (counted_add_on_present_word
              (addIncorrectCount "zax" 5 fresh) "zax" 3 5) as [Hinc _].
  - split; vm_compute; reflexivity.
  - apply Hinc. reflexivity.
Defined.

End QuizProgressOperations.

(** ** QuizProgress: the documents asDomElement writes *)

Section WrittenDocuments.
Import Qt QuizProgress.

Lemma entry_le_trans : Transitive entry_le.
Proof. intros a b c. unfold entry_le. apply (transitivity (R := String.le)). Qed.

Lemma QMap_entries_sorted (m : gmap string Z) :
  StronglySorted entry_le (QMap_entries m).
Proof.
  apply (StronglySorted_merge_sort entry_le (Transitive0 := entry_le_trans)
           (Total0 := entry_le_total)).
Qed.

Lemma elem_of_QMap_entries (m : gmap string Z) w c :
  (w, c) ∈ QMap_entries m <-> m !! w = Some c.
Proof. rewrite QMap_entries_perm. apply elem_of_map_to_list. Qed.

Lemma QMap_entries_empty : QMap_entries ∅ = [].
Proof. unfold QMap_entries. by rewrite map_to_list_empty. Qed.

Lemma visited_responses (l : list (string * Z)) :
  visited (responseElement <$> l) = responseElement <$> l.
Proof. induction l as [|e l IH]; [done|]. cbn. by rewrite IH. Qed.

Lemma responseWord_responseElement e : responseWord (responseElement e) = e.1.
Proof.
  unfold responseWord, responseElement, attribute, setAttribute.
  rewrite lookup_insert_ne by done. by rewrite lookup_insert_eq.
Qed.

Lemma responseEntry_responseElement e :
  CInt.in_range e.2 -> responseEntry (responseElement e) = Some e.
Proof.
  intros He. unfold responseEntry, responseElement, attribute, setAttribute.
  rewrite lookup_insert_eq. cbn [default from_option id].
  rewrite (toInt_number _ He).
  rewrite lookup_insert_ne by done. rewrite lookup_insert_eq.
  by destruct e.
Qed.

Lemma responseEntries_responses (l : list (string * Z)) :
  Forall (fun e => CInt.in_range e.2) l ->
  responseEntries (responseElement <$> l) = l.
Proof.
  intros Hl. unfold responseEntries. rewrite visited_responses.
  induction Hl as [|e l He Hl IH]; [done|].
  rewrite fmap_cons. cbn [omap list_omap].
  rewrite (responseEntry_responseElement e He).
  change (list_omap _ _ responseEntry (responseElement <$> l))
    with (omap responseEntry (responseElement <$> l)).
  by rewrite IH.
Qed.

Lemma responseWords_responses (l : list (string * Z)) :
  responseWord <$> visited (responseElement <$> l) = l.*1.
Proof.
  rewrite visited_responses, <- list_fmap_compose.
  apply list_fmap_ext. intros i e _. apply responseWord_responseElement.
Qed.

(** The entries and the words the reader finds in a written document. *)
Lemma documentEntries_asDomElement elemMissed p :
  intsInRange p ->
  documentEntries elemMissed (asDomElement p)
  = QMap_entries (wordsOf elemMissed p).
Proof.
  intros (_ & _ & Hiw & Hmw).
  unfold asDomElement, documentEntries, responsesElement, wordsOf.
  destruct (decide (incorrectWords p = ∅)) as [Hi|Hi],
           (decide (missedWords p = ∅)) as [Hm|Hm];
    rewrite ?Hi, ?Hm; destruct elemMissed;
    cbn [app visited fmap list_fmap concat containerEntries];
    repeat (case_bool_decide; try done);
    rewrite ?QMap_entries_empty, ?app_nil_r;
    try done;
    rewrite responseEntries_responses by (by apply entries_in_range);
    done.
Qed.

Lemma documentWords_asDomElement elemMissed p :
  documentWords elemMissed (asDomElement p)
  = (QMap_entries (wordsOf elemMissed p)).*1.
Proof.
  unfold asDomElement, documentWords, responsesElement, wordsOf.
  destruct (decide (incorrectWords p = ∅)) as [Hi|Hi],
           (decide (missedWords p = ∅)) as [Hm|Hm];
    rewrite ?Hi, ?Hm; destruct elemMissed;
    cbn [app visited fmap list_fmap concat containerWords];
    repeat (case_bool_decide; try done);
    rewrite ?QMap_entries_empty, ?app_nil_r;
    try done;
    change (list_fmap _ _ responseWord ?l) with (responseWord <$> l);
    by rewrite responseWords_responses.
Qed.

(** X12: the document [asDomElement] writes is accepted by the reader, lists
    for each map exactly the entries of the map, each word once, in
    ascending order of the words. *)
Theorem asDomElement_well_formed p elemMissed :
  intsInRange p ->
  validates (asDomElement p) = true /\
  noWordTwice (asDomElement p) /\
  documentEntries elemMissed (asDomElement p)
  = QMap_entries (wordsOf elemMissed p) /\
  StronglySorted entry_le (documentEntries elemMissed (asDomElement p)) /\
  (forall word count,
      (word, count) ∈ documentEntries elemMissed (asDomElement p)
      <-> wordsOf elemMissed p !! word = Some count).
Proof.
  intros Hints.
  assert (Hnd : forall em, NoDup (QMap_entries (wordsOf em p)).*1).
  { intros em. rewrite QMap_entries_perm. apply NoDup_fst_map_to_list. }
  split.
  { apply readProgress_is_Some.
    rewrite (readProgress_asDomElement p Hints). eauto. }
  split.
  { split; rewrite documentWords_asDomElement; apply Hnd. }
  rewrite (documentEntries_asDomElement _ _ Hints).
  split; [done|]. split; [apply QMap_entries_sorted|].
  intros word count. apply elem_of_QMap_entries.
Qed.

Lemma asDomElement_well_formed_witness :
  let p := addMissed "qat" (addIncorrect "zax" (addIncorrect "act" fresh)) in
  validates (asDomElement p) = true /\
  documentEntries false (asDomElement p) = [("act", 1); ("zax", 1)].
Proof.
  cbv zeta.
  destruct (asDomElement_well_formed
              (addMissed "qat" (addIncorrect "zax" (addIncorrect "act" fresh)))
              false) as (Hv & _ & He & _).
  - apply reachable_intsInRange.
    apply reachable_addMissed. do 2 apply reachable_addIncorrect.
    apply reachable_fresh.
  - split; [exact Hv|]. rewrite He. vm_compute. reflexivity.
Defined.

(** X13: for every object built through the public operations, reading the
    document written from it succeeds and gives an object with the same
    question, correct count and maps, whose two totals are the sums of the
    repeat counts; writing and reading that object again gives it back. *)
Theorem roundtrip_normalizes p this that :
  reachable p ->
  let p' := (fromDomElement (asDomElement p) this).2 in
  fromDomElement (asDomElement p) this = (true, p') /\
  getQuestion p' = getQuestion p /\ getNumCorrect p' = getNumCorrect p /\
  getIncorrect p' = getIncorrect p /\ getMissed p' = getMissed p /\
  totalsAgree p' /\
  fromDomElement (asDomElement p') that = (true, p').
Proof.
  intros Hp. cbv zeta.
  pose proof (reachable_intsInRange p Hp) as Hints.
  assert (Hread : fromDomElement (asDomElement p) this
                  = (true,
                     Build (question p) (correct p)
                           (CInt.wrap (sumCounts (incorrectWords p)))
                           (CInt.wrap (sumCounts (missedWords p)))
                           (incorrectWords p) (missedWords p))).
  { unfold fromDomElement. by rewrite (readProgress_asDomElement p Hints). }
  rewrite Hread. cbn [snd].
  split; [done|]. do 4 (split; [done|]).
  split; [by split|].
  unfold fromDomElement. rewrite readProgress_asDomElement; [done|].
  exact Hints.
Qed.

Lemma roundtrip_normalizes_witness :
  let p := addIncorrectCount "zax" 3 (addIncorrectCount "zax" 5 fresh) in
  getNumIncorrect p = 8 /\
  getNumIncorrect (fromDomElement (asDomElement p) fresh).2 = 3 /\
  totalsAgree (fromDomElement (asDomElement p) fresh).2.
Proof.
  cbv zeta. split; [reflexivity|]. split; [vm_compute; reflexivity|].
  apply (roundtrip_normalizes
           (addIncorrectCount "zax" 3 (addIncorrectCount "zax" 5 fresh))
           fresh fresh).
  do 2 (apply reachable_addIncorrectCount; [by vm_compute|]).
  apply reachable_fresh.
Defined.

End WrittenDocuments.

(** ** QuizProgress: what a document reads as *)

Section ReadDocuments.
Import Qt QuizProgress.

Lemma sum_app (l1 l2 : list Z) :
  foldr Z.add 0 (l1 ++ l2) = foldr Z.add 0 l1 + foldr Z.add 0 l2.
Proof. induction l1 as [|x l1 IH]; cbn; lia. Qed.

(** The inner loop performs the counted adds of the entries it visits. *)
Lemma readResponses_restore elemMissed nodes tmp tmp' :
  readResponses elemMissed nodes tmp = Some tmp' ->
  tmp' = restore elemMissed (responseEntries nodes) tmp.
Proof.
  revert tmp. induction nodes as [|[tag attrs children|data] nodes IH];
    intros tmp; cbn [readResponses]; try by intros [= <-].
  destruct (negb _ || negb _); [discriminate|].
  destruct (toInt (attribute attrs XML_RESPONSE_COUNT_ATTR)) as [count|]
    eqn:Hcount; [|discriminate].
  intros Hread. rewrite (IH _ Hread).
  unfold responseEntries. cbn [visited omap list_omap responseEntry].
  rewrite Hcount. reflexivity.
Qed.

(** The outer loop, field by field. *)
Lemma readContainers_fields nodes tmp tmp' :
  readContainers nodes tmp = Some tmp' ->
  CInt.in_range (incorrect tmp) -> CInt.in_range (missed tmp) ->
  let listed em := concat (containerEntries em <$> visited nodes) in
  tmp' = Build (question tmp) (correct tmp)
               (CInt.wrap (incorrect tmp + foldr Z.add 0 (listed false).*2))
               (CInt.wrap (missed tmp + foldr Z.add 0 (listed true).*2))
               (list_to_map (reverse (listed false)) ∪ incorrectWords tmp)
               (list_to_map (reverse (listed true)) ∪ missedWords tmp).
Proof.
  cbv zeta. revert tmp.
  induction nodes as [|[tag attrs children|data] nodes IH]; intros tmp;
    cbn [readContainers visited fmap list_fmap concat].
  - intros [= <-] Hi Hm. cbn.
    rewrite !Z.add_0_r, (wrap_id _ Hi), (wrap_id _ Hm).
    rewrite !(left_id_L ∅ (∪)). clear. destruct tmp. reflexivity.
  - change (list_fmap _ _ ?f (visited nodes)) with (f <$> visited nodes).
    destruct (negb _ && negb _); [discriminate|].
    cbn [containerEntries].
    destruct (bool_decide (tag = XML_MISSED_RESPONSES_ELEMENT));
      (destruct (readResponses _ children tmp) as [tmp1|] eqn:Hread;
       [|discriminate]);
      apply readResponses_restore in Hread; subst tmp1;
      intros Hrest Hi Hm.
    + rewrite restore_missed in Hrest by done.
      rewrite (IH _ Hrest) by (cbn; first [done|apply wrap_in_range]).
      rewrite (bool_decide_eq_true_2 (true = true)) by done.
      rewrite (bool_decide_eq_false_2 (true = false)) by done.
      cbn [question correct incorrect missed incorrectWords missedWords app].
      rewrite fmap_app, sum_app, reverse_app, list_to_map_app.
      rewrite wrap_add_l, <- (assoc_L (∪)). f_equal. f_equal. lia.
    + rewrite restore_incorrect in Hrest by done.
      rewrite (IH _ Hrest) by (cbn; first [done|apply wrap_in_range]).
      rewrite (bool_decide_eq_true_2 (false = false)) by done.
      rewrite (bool_decide_eq_false_2 (false = true)) by done.
      cbn [question correct incorrect missed incorrectWords missedWords app].
      rewrite fmap_app, sum_app, reverse_app, list_to_map_app.
      rewrite wrap_add_l, <- (assoc_L (∪)). f_equal. f_equal. lia.
  - intros [= <-] Hi Hm. cbn.
    rewrite !Z.add_0_r, (wrap_id _ Hi), (wrap_id _ Hm).
    rewrite !(left_id_L ∅ (∪)). clear. destruct tmp. reflexivity.
Qed.

(** In a list of pairs read in order, the last pair for a word decides. *)
Lemma last_listing_wins (entries pre post : list (string * Z)) word count :
  entries = (pre ++ (word, count) :: post)%list -> word ∉ post.*1 ->
  (list_to_map (reverse entries) : gmap string Z) !! word = Some count.
Proof.
  intros -> Hlast. rewrite reverse_app, reverse_cons, <- app_assoc.
  rewrite list_to_map_app. apply lookup_union_Some_raw. right. split.
  - apply not_elem_of_list_to_map_1. by rewrite fmap_reverse, elem_of_reverse.
  - cbn. apply lookup_insert_eq.
Qed.

(** X14: what a successful [fromDomElement] stores.  The question and the
    correct count are the values of the two attributes, 0 for an absent one.
    The reader visits the children of the top element up to the first one
    that is not an element, and in each container the response elements up
    to its first child that is not an element; what comes after such a node
    is not read.  Each map holds the words of the response elements visited
    for it, a word visited more than once with the count of its last visit,
    and a word that is not visited is not in the map.  Each total is the
    sum, in [int] arithmetic, of all the counts visited, repeated words
    included. *)
Theorem fromDomElement_reads element this p :
  fromDomElement element this = (true, p) ->
  getQuestion p = intAttrOr0 element XML_QUESTION_ATTR /\
  getNumCorrect p = intAttrOr0 element XML_CORRECT_ATTR /\
  getIncorrect p = list_to_map (reverse (documentEntries false element)) /\
  getMissed p = list_to_map (reverse (documentEntries true element)) /\
  getNumIncorrect p
  = CInt.wrap (foldr Z.add 0 (documentEntries false element).*2) /\
  getNumMissed p
  = CInt.wrap (foldr Z.add 0 (documentEntries true element).*2) /\
  (forall elemMissed pre post word count,
      documentEntries elemMissed element
      = (pre ++ (word, count) :: post)%list ->
      word ∉ post.*1 -> wordsOf elemMissed p !! word = Some count) /\
  (forall elemMissed word,
      word ∉ (documentEntries elemMissed element).*1 ->
      wordsOf elemMissed p !! word = None).
Proof.
  unfold fromDomElement, readProgress.
  destruct (negb _); [discriminate|].
  destruct element as [tag attrs children|data]; [|discriminate].
  unfold readIntAttr, intAttrOr0, documentEntries.
  set (q := if hasAttribute attrs XML_QUESTION_ATTR
            then default 0 (toInt (attribute attrs XML_QUESTION_ATTR)) else 0).
  set (c := if hasAttribute attrs XML_CORRECT_ATTR
            then default 0 (toInt (attribute attrs XML_CORRECT_ATTR)) else 0).
  assert (Hfields :
    forall tmp2, question tmp2 = q -> correct tmp2 = c ->
      incorrect tmp2 = 0 -> missed tmp2 = 0 ->
      incorrectWords tmp2 = ∅ -> missedWords tmp2 = ∅ ->
      match readContainers children tmp2 with
      | Some tmpProgress => (true, tmpProgress)
      | None => (false, this)
      end = (true, p) ->
      p = Build q c
            (CInt.wrap (foldr Z.add 0
               (concat (containerEntries false <$> visited children)).*2))
            (CInt.wrap (foldr Z.add 0
               (concat (containerEntries true <$> visited children)).*2))
            (list_to_map
               (reverse (concat (containerEntries false <$> visited children))))
            (list_to_map
               (reverse (concat (containerEntries true <$> visited children))))).
  { intros tmp2 Hq Hc Hi Hm Hiw Hmw.
    destruct (readContainers children tmp2) as [tmp|] eqn:Hread;
      [|discriminate].
    intros [= <-].
    rewrite (readContainers_fields _ _ _ Hread)
      by (rewrite ?Hi, ?Hm; by vm_compute).
    rewrite Hq, Hc, Hi, Hm, Hiw, Hmw, !Z.add_0_l, !(right_id_L ∅ (∪)).
    reflexivity. }
  intros Hp.
  assert (Hshape : p = Build q c
            (CInt.wrap (foldr Z.add 0
               (concat (containerEntries false <$> visited children)).*2))
            (CInt.wrap (foldr Z.add 0
               (concat (containerEntries true <$> visited children)).*2))
            (list_to_map
               (reverse (concat (containerEntries false <$> visited children))))
            (list_to_map
               (reverse (concat (containerEntries true <$> visited children))))).
  { subst q c. revert Hp.
    destruct (hasAttribute attrs XML_QUESTION_ATTR);
      [destruct (toInt (attribute attrs XML_QUESTION_ATTR)) as [qv|];
       [|discriminate]|];
      (destruct (hasAttribute attrs XML_CORRECT_ATTR);
       [destruct (toInt (attribute attrs XML_CORRECT_ATTR)) as [cv|];
        [|discriminate]|]);
      intros Hp; (eapply Hfields; [| | | | | |exact Hp]; reflexivity). }
  clear Hp Hfields. subst p.
  unfold getQuestion, getNumCorrect, getIncorrect, getMissed,
    getNumIncorrect, getNumMissed.
  cbn [question correct incorrect missed incorrectWords missedWords].
  do 6 (split; [reflexivity|]). split.
  - intros em pre post word count Hlisted Hlast.
    destruct em; cbn [wordsOf incorrectWords missedWords];
      by eapply last_listing_wins.
  - intros em word Hnot.
    destruct em; cbn [wordsOf incorrectWords missedWords];
      apply not_elem_of_list_to_map_1;
      by rewrite fmap_reverse, elem_of_reverse.
Qed.

(** A document with white space around a numeral, a [+] sign, a word
    listed twice and a response after a comment. *)
Lemma fromDomElement_reads_witness :
  let element :=
    QDomElement "progress" {[ "correct" := " 4 " ]}
      [QDomElement "incorrect-responses" ∅
         [QDomElement "response" {[ "word" := "zax"; "count" := "+5" ]} [];
          QDomElement "response" {[ "word" := "zax"; "count" := "3" ]} [];
          QDomOther "a comment";
          QDomElement "response" {[ "word" := "qat"; "count" := "9" ]} []]] in
  let p :=
    addIncorrectCount "zax" 3 (addIncorrectCount "zax" 5 (setCorrect 4 fresh)) in
  fromDomElement element fresh = (true, p) /\
  documentEntries false element = [("zax", 5); ("zax", 3)] /\
  wordsOf false p !! "zax" = Some 3 /\
  wordsOf false p !! "qat" = None.
Proof.
  cbv zeta.
  assert (Hread :
    fromDomElement
      (QDomElement "progress" {[ "correct" := " 4 " ]}
         [QDomElement "incorrect-responses" ∅
            [QDomElement "response" {[ "word" := "zax"; "count" := "+5" ]} [];
             QDomElement "response" {[ "word" := "zax"; "count" := "3" ]} [];
             QDomOther "a comment";
             QDomElement "response" {[ "word" := "qat"; "count" := "9" ]} []]])
      fresh
    = (true,
       addIncorrectCount "zax" 3
         (addIncorrectCount "zax" 5 (setCorrect 4 fresh))))
    by (vm_compute; reflexivity).
  split; [exact Hread|]. split; [vm_compute; reflexivity|].
  destruct (fromDomElement_reads _ _ _ Hread)
    as (_ & _ & _ & _ & _ & _ & Hlast & Habsent).
  split.
  - apply (Hlast false [("zax", 5)] [] "zax" 3).
    + vm_compute. reflexivity.
    + cbn. apply not_elem_of_nil.
  - apply (Habsent false "qat").
    vm_compute. intros Hin.
    apply elem_of_cons in Hin as [Hin|Hin]; [discriminate|].
    apply elem_of_cons in Hin as [Hin|Hin]; [discriminate|].
    by apply elem_of_nil in Hin.
Defined.

End ReadDocuments.

(** ** CrosswordGameBoard: the squares and the guard of getSquareType *)

Section CrosswordGameBoardFacts.
Import CrosswordGameBoard.

(** Case analysis on an index between 0 and 14. *)
Local Ltac each_index x :=
  let H := fresh "H" in
  assert (H : x = 0 \/ x = 1 \/ x = 2 \/ x = 3 \/ x = 4 \/ x = 5 \/ x = 6 \/
              x = 7 \/ x = 8 \/ x = 9 \/ x = 10 \/ x = 11 \/ x = 12 \/
              x = 13 \/ x = 14)
    by (unfold getNumRows, getNumColumns, NUM_ROWS, NUM_COLUMNS in *; lia);
  destruct H as [->|[->|[->|[->|[->|[->|[->|[->|[->|[->|[->|[->|[->|[->| ->]]]]]]]]]]]]]].

(** X15: the constructed board has a square type other than [Invalid] at
    every row below [getNumRows] and column below [getNumColumns]. *)
Theorem board_squares_valid row col :
  0 <= row < getNumRows construct -> 0 <= col < getNumColumns construct ->
  exists type,
    getSquareType construct row col = Some type /\ type <> Invalid.
Proof.
  intros Hrow Hcol. each_index row; each_index col;
    (eexists; split; [reflexivity|discriminate]).
Qed.

Lemma board_squares_valid_witness :
  exists type, getSquareType construct 7 7 = Some type /\ type <> Invalid.
Proof.
  apply (board_squares_valid 7 7);
    unfold getNumRows, getNumColumns, NUM_ROWS, NUM_COLUMNS; lia.
Defined.

(** X16: for a negative row or column and for a row or column above 15,
    [getSquareType] is [Invalid], whatever the board holds. *)
Theorem board_outside_invalid board row col :
  row < 0 \/ row > 15 \/ col < 0 \/ col > 15 ->
  getSquareType board row col = Some Invalid.
Proof.
  intros Hout. unfold getSquareType, NUM_ROWS, NUM_COLUMNS.
  destruct (row <? 0) eqn:H1; [done|].
  destruct (row >? 15) eqn:H2; [done|].
  destruct (col <? 0) eqn:H3; [done|].
  destruct (col >? 15) eqn:H4; [done|].
  apply Z.ltb_ge in H1, H3. rewrite Z.gtb_ltb in H2, H4.
  apply Z.ltb_ge in H2, H4. lia.
Qed.

Lemma board_outside_invalid_witness :
  getSquareType construct (-1) 3 = Some Invalid.
Proof. apply (board_outside_invalid construct (-1) 3). lia. Defined.

(** X17: the guard of [getSquareType] lets row 15 and column 15 through,
    which are not positions of the fifteen lists of fifteen squares: there
    the index is out of range and the call has no defined result. *)
Theorem board_guard_admits_15 row col :
  0 <= row <= 15 -> 0 <= col <= 15 -> row = 15 \/ col = 15 ->
  getSquareType construct row col = None.
Proof.
  intros Hrow Hcol [-> | ->].
  - assert (Hc : col = 15 \/ 0 <= col < 15) by lia.
    destruct Hc as [->|Hc]; [reflexivity|].
    each_index col; reflexivity.
  - assert (Hr : row = 15 \/ 0 <= row < 15) by lia.
    destruct Hr as [->|Hr]; [reflexivity|].
    each_index row; reflexivity.
Qed.

Lemma board_guard_admits_15_witness :
  getSquareType construct 15 0 = None /\ getSquareType construct 0 15 = None.
Proof.
  split; [apply (board_guard_admits_15 15 0)|apply (board_guard_admits_15 0 15)];
    lia.
Defined.

(** X18: the constructed board is symmetric: the square type at a row and
    column is the one with row and column exchanged, the one in the mirrored
    row, and the one in the mirrored column. *)
Theorem board_symmetric row col :
  0 <= row < 15 -> 0 <= col < 15 ->
  getSquareType construct row col = getSquareType construct col row /\
  getSquareType construct row col = getSquareType construct (14 - row) col /\
  getSquareType construct row col = getSquareType construct row (14 - col).
Proof.
  intros Hrow Hcol. each_index row; each_index col;
    (split; [reflexivity|split; reflexivity]).
Qed.

Lemma board_symmetric_witness :
  getSquareType construct 0 3 = getSquareType construct 3 0 /\
  getSquareType construct 0 3 = getSquareType construct 14 3.
Proof.
  destruct (board_symmetric 0 3) as (Ht & Hm & _); [lia|lia|].
  split; [exact Ht|exact Hm].
Defined.

End CrosswordGameBoardFacts.

(** ** QuizEngine: walking through the questions, and the score *)

Section QuizEngineWalk.
Import QuizEngine.

Lemma calls_snoc cs c s : calls (cs ++ [c]) s = call c (calls cs s).
Proof. unfold calls. by rewrite foldl_app. Qed.

Lemma nextCalls_snoc cs c :
  nextCalls (cs ++ [c])
  = (nextCalls cs
     + match c with CallNextQuestion => 1 | CallRespond _ => 0 end)%nat.
Proof.
  unfold nextCalls. induction cs as [|x cs IH]; cbn [app foldr].
  - destruct c; reflexivity.
  - rewrite IH. destruct x; lia.
Qed.

Lemma answers_sum_snoc (f : string -> Z) (l : list string) q :
  foldr Z.add 0 (f <$> (l ++ [q])%list) = foldr Z.add 0 (f <$> l) + f q.
Proof. induction l as [|x l IH]; cbn in *; lia. Qed.

(** X19: [nextQuestion] walks through the questions in order and stops at
    the last one.  After a sequence of calls with [k] calls of
    [nextQuestion], in a quiz with at least one question, the cursor is the
    smaller of [k] and the last position, and the possible total is the sum,
    over the questions reached so far, of the number of different answers
    the lexicon has for them; the [respond] calls in between change
    neither. *)
Theorem nextQuestion_walks input type alphagrams randomOrder rand s cs :
  let s0 := newQuiz input type alphagrams randomOrder rand s in
  let sk := calls cs s0 in
  let reached := Nat.min (nextCalls cs) (length (quizQuestions s0) - 1) in
  quizQuestions s0 <> [] ->
  questionIndex sk = Z.of_nat reached /\
  quizQuestions s0 !! reached = Some (getQuestion sk) /\
  quizTotal sk
  = foldr Z.add 0
      (answerCount (wordEngine s0) (quizType s0)
         <$> take (S reached) (quizQuestions s0)).
Proof.
  cbv zeta. intros Hne.
  set (s0 := newQuiz input type alphagrams randomOrder rand s) in *.
  set (qs := quizQuestions s0) in *.
  assert (Hlen : (0 < length qs)%nat) by (destruct qs; [done|cbn; lia]).
  assert (Hinv :
    quizQuestions (calls cs s0) = qs /\
    wordEngine (calls cs s0) = wordEngine s0 /\
    quizType (calls cs s0) = quizType s0 /\
    questionIndex (calls cs s0)
    = Z.of_nat (Nat.min (nextCalls cs) (length qs - 1)) /\
    quizTotal (calls cs s0)
    = foldr Z.add 0
        (answerCount (wordEngine s0) (quizType s0)
           <$> take (S (Nat.min (nextCalls cs) (length qs - 1))) qs)).
  { induction cs as [|c cs IH] using rev_ind.
    - cbn [calls foldl nextCalls foldr]. rewrite Nat.min_0_l.
      split; [done|]. split; [done|]. split; [done|].
      destruct (newQuiz_fields input type alphagrams randomOrder rand s)
        as (_ & Hi & _). cbv zeta in Hi. fold s0 in Hi.
      split; [exact Hi|].
      pose proof (newQuiz_first_question input type alphagrams randomOrder
                    rand s) as Ht. cbv zeta in Ht. fold s0 in Ht.
      rewrite Ht. unfold getQuestion. rewrite Hi. fold qs.
      destruct qs as [|q qs']; [done|].
      change (Z.to_nat 0) with 0%nat. cbn [lookup list_lookup default
        from_option id Nat.min take fmap list_fmap foldr].
      rewrite ?take_0. cbn [fmap list_fmap foldr].
      change (0 <? 0) with false. cbv beta iota. lia.
    - destruct IH as (Hq & He & Hty & Hi & Ht).
      rewrite calls_snoc, nextCalls_snoc.
      set (sk := calls cs s0) in *. clearbody sk.
      destruct c as [response|]; cbn [call].
      + destruct (respond_frame response sk)
          as (-> & -> & -> & -> & -> & _).
        rewrite Nat.add_0_r. done.
      + unfold nextQuestion, onLastQuestion. rewrite Hq, Hi.
        destruct (Z.of_nat _ =? Z.of_nat (length qs) - 1) eqn:Hlast;
          cbn [snd].
        * apply Z.eqb_eq in Hlast.
          replace (Nat.min (nextCalls cs + 1) (length qs - 1))
            with (Nat.min (nextCalls cs) (length qs - 1)) by lia.
          done.
        * apply Z.eqb_neq in Hlast.
          assert (Hk : (nextCalls cs < length qs - 1)%nat) by lia.
          replace (Nat.min (nextCalls cs) (length qs - 1))
            with (nextCalls cs) in * by lia.
          replace (Nat.min (nextCalls cs + 1) (length qs - 1))
            with (S (nextCalls cs)) by lia.
          unfold prepareQuestion. cbn. rewrite He, Hty, Ht.
          split; [done|]. split; [done|]. split; [done|].
          split; [lia|].
          unfold getQuestion, clearQuestion.
          cbn [questionIndex quizQuestions].
          replace (Z.of_nat (nextCalls cs) + 1 <? 0) with false
            by (symmetry; apply Z.ltb_ge; lia).
          replace (Z.to_nat (Z.of_nat (nextCalls cs) + 1))
            with (S (nextCalls cs)) by lia.
          destruct (lookup_lt_is_Some_2 qs (S (nextCalls cs))) as [q Hq1];
            [lia|].
          rewrite Hq1. cbn [default from_option id].
          rewrite (take_S_r qs (S (nextCalls cs)) q Hq1).
          rewrite answers_sum_snoc. unfold answerCount at 3.
          by rewrite insertAll_list_to_set, (right_id_L ∅ (∪)). }
  destruct Hinv as (Hq & He & Hty & Hi & Ht).
  split; [exact Hi|]. split; [|exact Ht].
  unfold getQuestion. rewrite Hq, Hi.
  replace (Z.of_nat _ <? 0) with false by (symmetry; apply Z.ltb_ge; lia).
  rewrite Nat2Z.id.
  destruct (lookup_lt_is_Some_2 qs
              (Nat.min (nextCalls cs) (length qs - 1))) as [q Hq1]; [lia|].
  by rewrite Hq1.
Qed.

Lemma nextQuestion_walks_witness :
  let s0 := Scenario.patternQuiz in
  let sk := calls [CallNextQuestion; CallRespond "cat"; CallNextQuestion] s0 in
  questionIndex sk = 1 /\ getQuestion sk = "act" /\ quizTotal sk = 4.
Proof.
  cbv zeta. split; [|split]; [| |vm_compute; reflexivity].
  - apply (nextQuestion_walks "?at" Pattern true false (fun _ => 0)
             Scenario.engine
             [CallNextQuestion; CallRespond "cat"; CallNextQuestion]).
    by vm_compute.
  - reflexivity.
Defined.

(** X20: the totals are the score of the [respond] calls.  Over every
    sequence of calls the correct total grows by the number of responses
    classified [Correct] and the incorrect total by the number classified
    [Incorrect]; a [Duplicate] and a [nextQuestion] add to neither. *)
Theorem totals_count_statuses cs s :
  quizCorrect (calls cs s)
  = quizCorrect s + Z.of_nat (countStatus Correct (statuses cs s)) /\
  quizIncorrect (calls cs s)
  = quizIncorrect s + Z.of_nat (countStatus Incorrect (statuses cs s)).
Proof.
  revert s. induction cs as [|c cs IH]; intros s.
  - cbn. lia.
  - unfold calls in *. cbn [foldl statuses].
    destruct c as [response|]; cbn [call].
    + destruct (IH (respond response s).2) as [-> ->].
      destruct (decide (response ∈ correctResponses s)) as [Hin|Hnot];
        [destruct (decide (response ∈ correctUserResponses s)) as [Hu|Hu]|].
      * rewrite respond_repeated by done. unfold countStatus. cbn. lia.
      * rewrite respond_new_answer by done. unfold countStatus. cbn. lia.
      * rewrite respond_not_answer by done. unfold countStatus. cbn. lia.
    + destruct (IH (nextQuestion s).2) as [-> ->].
      destruct (nextQuestion_frame s) as (_ & _ & _ & -> & ->). done.
Qed.

End QuizEngineWalk.
